(** * kompresor: a Huffman coder (kompresor.py)

    A shallow embedding of the coding core of [kompresor.py]: the frequency
    analyser, the tree builder (with Python's [heapq] as its priority
    queue), the code-table generator and the bit-stream codec, followed by
    the properties of the specification that hold of it and the inputs at
    which the remaining ones fail.

    Conventions.
    - A Python [str] over the alphabet "0"/"1" is a [list bool]: [false] is
      "0" and [true] is "1".
    - The input text is a [list Symbol]; a symbol is a one-character [str],
      which Python treats as true in a condition.
    - Python exceptions are values of [Py.Exception]; a computation that can
      raise returns a [Py.Result].  Loops whose termination is not
      structural carry a fuel argument and return [Py.OutOfFuel] when it
      runs out; the theorems show that this never happens with the fuel the
      callers pass.
    - Objects mutated in place (the heap list, the [codes] dict) are passed
      in and returned. *)

From stdpp Require Import base numbers list strings.
From Stdlib Require Import ZifyNat Ascii.

#[global] Arguments Nat.div : simpl never.
#[global] Arguments Nat.modulo : simpl never.

(* ===================================================================== *)
(** * Python primitives *)
(* ===================================================================== *)

Module Py.

Inductive Exception : Set :=
| IndexError
| KeyError
| ValueError
| AttributeError.

Inductive Result (A : Type) : Type :=
| Ok (a : A)
| Raise (e : Exception)
| OutOfFuel.
Global Arguments Ok {A} a.
Global Arguments Raise {A} e.
Global Arguments OutOfFuel {A}.

Global Instance Result_ret : MRet Result := @Ok.
Global Instance Result_bind : MBind Result := λ A B f m,
  match m with
  | Ok a => f a
  | Raise e => Raise e
  | OutOfFuel => OutOfFuel
  end.

(** [x > y] on the natural numbers is decided as [y < x]. *)
Global Instance nat_gt_dec : RelDecision gt := λ x y, decide (y < x).

(** [for x in xs: acc = f(acc, x)], stopping at the first exception. *)
Fixpoint for_each {A B : Type} (f : B → A → Result B) (xs : list A) (acc : B)
  : Result B :=
  match xs with
  | [] => Ok acc
  | x :: xs => acc ← f acc x; for_each f xs acc
  end.

(** ** Lists *)
Section PyList.
Context {A : Type}.

(** [l[i]] for [i >= 0]. *)
Definition getitem (l : list A) (i : nat) : Result A :=
  match l !! i with
  | Some x => Ok x
  | None => Raise IndexError
  end.

(** [l[i] = x] for [i >= 0]. *)
Definition setitem (l : list A) (i : nat) (x : A) : Result (list A) :=
  if decide (i < length l) then Ok (<[i:=x]> l) else Raise IndexError.

(** [l.pop()]: the last element and the list without it. *)
Definition pop (l : list A) : Result (A * list A) :=
  match last l with
  | Some x => Ok (x, removelast l)
  | None => Raise IndexError
  end.

(** The index a slice bound [i] denotes in a sequence of length [n]:
    negative bounds count from the end, and the result is clamped. *)
Definition slice_index (n : nat) (i : Z) : nat :=
  if decide (i < 0)%Z then Z.to_nat (Z.max 0 (Z.of_nat n + i))
  else Z.to_nat (Z.min i (Z.of_nat n)).

(** [s[start:stop]]. *)
Definition slice (s : list A) (start stop : Z) : list A :=
  let lo := slice_index (length s) start in
  let hi := slice_index (length s) stop in
  take (hi - lo) (drop lo s).
End PyList.

(** ** Dicts: insertion-ordered, one entry per key *)
Section PyDict.
Context {K V : Type} `{EqDecision K}.

Definition dict : Type := list (K * V).

Fixpoint dict_lookup (d : dict) (k : K) : option V :=
  match d with
  | [] => None
  | (k', v) :: d => if decide (k = k') then Some v else dict_lookup d k
  end.

(** [d[k]]. *)
Definition dict_getitem (d : dict) (k : K) : Result V :=
  match dict_lookup d k with
  | Some v => Ok v
  | None => Raise KeyError
  end.

(** [d[k] = v]: overwrites in place, or appends a new entry. *)
Fixpoint dict_setitem (d : dict) (k : K) (v : V) : dict :=
  match d with
  | [] => [(k, v)]
  | (k', v') :: d =>
      if decide (k = k') then (k', v) :: d
      else (k', v') :: dict_setitem d k v
  end.

(** [d[k] = v] for each [(k, v)] of [kvs], in order. *)
Definition dict_update (d : dict) (kvs : list (K * V)) : dict :=
  foldl (λ d kv, dict_setitem d kv.1 kv.2) d kvs.

(** [d.items()], in insertion order. *)
Definition items (d : dict) : list (K * V) := d.

Definition keys (d : dict) : list K := d.*1.
End PyDict.
Global Arguments dict : clear implicits.

(** ** Bit strings *)

Definition bitstring : Type := list bool.

(** The value of a string of binary digits, most significant first. *)
Definition binary_value (s : bitstring) : nat :=
  foldl (λ acc (b : bool), 2 * acc + (if b then 1 else 0)) 0 s.

(** [int(s, 2)]: an empty string is not a number. *)
Definition int_2 (s : bitstring) : Result nat :=
  match s with
  | [] => Raise ValueError
  | _ => Ok (binary_value s)
  end.

(** The binary digits of [n], most significant first, without leading
    zeros ([fuel] bounds the number of digits). *)
Fixpoint binary_digits (fuel n : nat) : bitstring :=
  match fuel with
  | 0 => []
  | S fuel =>
      if decide (n = 0) then []
      else binary_digits fuel (n / 2) ++ [bool_decide (n mod 2 = 1)]
  end.

(** [f"{n:08b}"]: at least eight binary digits, padded with "0" on the left. *)
Definition format_08b (n : nat) : bitstring :=
  let digits := binary_digits n n in
  replicate (8 - length digits) false ++ digits.

End Py.
Import Py.

(* ===================================================================== *)
(** * heapq

    The algorithms of [heapq.py] as shipped with CPython; its C
    accelerator makes the same comparisons and moves.  The list is updated
    in place there and returned here. *)
(* ===================================================================== *)

Module heapq.
Section Heapq.
Context {A : Type}.
(** [x < y], which [heapq] resolves through [__lt__]. *)
Variable less : A → A → bool.

(** The [while pos > startpos] loop of [_siftdown]; returns the heap and
    the position where [newitem] is to be stored. *)
Fixpoint siftdown_loop (fuel : nat) (heap : list A) (startpos pos : nat)
    (newitem : A) : Result (list A * nat) :=
  if decide (pos > startpos) then
    match fuel with
    | 0 => OutOfFuel
    | S fuel =>
        let parentpos := (pos - 1) / 2 in
        parent ← getitem heap parentpos;
        if less newitem parent then
          heap ← setitem heap pos parent;
          siftdown_loop fuel heap startpos parentpos newitem
        else Ok (heap, pos)
    end
  else Ok (heap, pos).

Definition _siftdown (heap : list A) (startpos pos : nat) : Result (list A) :=
  newitem ← getitem heap pos;
  '(heap, pos) ← siftdown_loop pos heap startpos pos newitem;
  setitem heap pos newitem.

(** The [while childpos < endpos] loop of [_siftup]: the smaller child
    moves up until the hole reaches a leaf. *)
Fixpoint siftup_loop (fuel : nat) (heap : list A) (endpos pos childpos : nat)
    : Result (list A * nat) :=
  if decide (childpos < endpos) then
    match fuel with
    | 0 => OutOfFuel
    | S fuel =>
        let rightpos := childpos + 1 in
        childpos ←
          (if decide (rightpos < endpos) then
             c ← getitem heap childpos;
             r ← getitem heap rightpos;
             Ok (if negb (less c r) then rightpos else childpos)
           else Ok childpos);
        child ← getitem heap childpos;
        heap ← setitem heap pos child;
        siftup_loop fuel heap endpos childpos (2 * childpos + 1)
    end
  else Ok (heap, pos).

Definition _siftup (heap : list A) (pos : nat) : Result (list A) :=
  let endpos := length heap in
  let startpos := pos in
  newitem ← getitem heap pos;
  '(heap, pos) ← siftup_loop endpos heap endpos pos (2 * pos + 1);
  heap ← setitem heap pos newitem;
  _siftdown heap startpos pos.

Definition heappush (heap : list A) (item : A) : Result (list A) :=
  let heap := heap ++ [item] in
  _siftdown heap 0 (length heap - 1).

Definition heappop (heap : list A) : Result (A * list A) :=
  '(lastelt, heap) ← pop heap;
  match heap with
  | _ :: _ =>
      returnitem ← getitem heap 0;
      heap ← setitem heap 0 lastelt;
      heap ← _siftup heap 0;
      Ok (returnitem, heap)
  | [] => Ok (lastelt, heap)
  end.

(** [for i in reversed(range(n//2)): _siftup(x, i)]. *)
Definition heapify (x : list A) : Result (list A) :=
  let n := length x in
  for_each _siftup (rev (seq 0 (n / 2))) x.
End Heapq.
End heapq.

(* ===================================================================== *)
(** * kompresor.py *)
(* ===================================================================== *)

(** [class HuffmanNode]: an object with the attributes [char] (a symbol
    or [None]), [freq], [left] and [right] (nodes or [None]). *)
Inductive HuffmanNode (Symbol : Type) : Type :=
  | mkHuffmanNode (char : option Symbol) (freq : nat)
                     (left right : option (HuffmanNode Symbol)).
Global Arguments mkHuffmanNode {Symbol} char freq left right.

Section Kompresor.
Context {Symbol : Type} `{EqDecision Symbol}.

Definition char (self : HuffmanNode Symbol) : option Symbol :=
  match self with mkHuffmanNode c _ _ _ => c end.
Definition freq (self : HuffmanNode Symbol) : nat :=
  match self with mkHuffmanNode _ f _ _ => f end.
Definition left (self : HuffmanNode Symbol) : option (HuffmanNode Symbol) :=
  match self with mkHuffmanNode _ _ l _ => l end.
Definition right (self : HuffmanNode Symbol) : option (HuffmanNode Symbol) :=
  match self with mkHuffmanNode _ _ _ r => r end.

(** [HuffmanNode(char, freq)], that is [__init__]: both children are [None]. *)
Definition HuffmanNode_init (char : option Symbol) (freq : nat) : HuffmanNode Symbol :=
  mkHuffmanNode char freq None None.

(** [self.left = node] and [self.right = node]. *)
Definition set_left (self : HuffmanNode Symbol) (node : option (HuffmanNode Symbol))
    : HuffmanNode Symbol :=
  mkHuffmanNode (char self) (freq self) node (right self).
Definition set_right (self : HuffmanNode Symbol) (node : option (HuffmanNode Symbol))
    : HuffmanNode Symbol :=
  mkHuffmanNode (char self) (freq self) (left self) node.

(** [HuffmanNode.__lt__]. *)
Definition HuffmanNode_lt (self other : HuffmanNode Symbol) : bool :=
  bool_decide (freq self < freq other).

(** [if node.char:] -- [None] is false, a one-character string is true. *)
Definition truthy (c : option Symbol) : bool :=
  match c with Some _ => true | None => false end.

(** ** build_frequency_dict *)
Definition build_frequency_dict (data : list Symbol) : dict Symbol nat :=
  foldl (λ frequency char,
           dict_setitem frequency char (default 0 (dict_lookup frequency char) + 1))
        [] data.

(** ** build_huffman_tree *)

(** The [while len(priority_queue) > 1] loop. *)
Fixpoint merge_loop (fuel : nat) (priority_queue : list (HuffmanNode Symbol))
    : Result (list (HuffmanNode Symbol)) :=
  if decide (length priority_queue > 1) then
    match fuel with
    | 0 => OutOfFuel
    | S fuel =>
        '(left, priority_queue) ← heapq.heappop HuffmanNode_lt priority_queue;
        '(right, priority_queue) ← heapq.heappop HuffmanNode_lt priority_queue;
        let merged := HuffmanNode_init None (freq left + freq right) in
        let merged := set_left merged (Some left) in
        let merged := set_right merged (Some right) in
        priority_queue ← heapq.heappush HuffmanNode_lt priority_queue merged;
        merge_loop fuel priority_queue
    end
  else Ok priority_queue.

Definition build_huffman_tree (frequency : dict Symbol nat)
    : Result (HuffmanNode Symbol) :=
  let priority_queue :=
    (λ '(char, freq), HuffmanNode_init (Some char) freq) <$> items frequency in
  priority_queue ← heapq.heapify HuffmanNode_lt priority_queue;
  priority_queue ← merge_loop (length priority_queue) priority_queue;
  getitem priority_queue 0.

(** ** build_codes *)

(** [_build_codes_helper(node, current_code)] for a node that is not
    [None]; on [None] the helper does nothing, which is the [None]
    branches below.  The dict [codes] of the enclosing function is passed
    through. *)
Fixpoint _build_codes_helper (node : HuffmanNode Symbol) (current_code : bitstring)
    (codes : dict Symbol bitstring) : dict Symbol bitstring :=
  match node with
  | mkHuffmanNode char _ left right =>
      let codes :=
        if truthy char then
          match char with
          | Some c => dict_setitem codes c current_code
          | None => codes
          end
        else codes in
      let codes :=
        match left with
        | Some l => _build_codes_helper l (current_code ++ [false]) codes
        | None => codes
        end in
      match right with
      | Some r => _build_codes_helper r (current_code ++ [true]) codes
      | None => codes
      end
  end.

Definition build_codes (root : HuffmanNode Symbol) : dict Symbol bitstring :=
  _build_codes_helper root [] [].

(** ** encode_data *)

(** ["".join(codes[char] for char in data)]. *)
Fixpoint join_codes (data : list Symbol) (codes : dict Symbol bitstring)
    : Result bitstring :=
  match data with
  | [] => Ok []
  | char :: data =>
      code ← dict_getitem codes char;
      rest ← join_codes data codes;
      Ok (code ++ rest)
  end.

Definition encode_data (data : list Symbol) (codes : dict Symbol bitstring)
    : Result bitstring :=
  encoded_data ← join_codes data codes;
  let padding := 8 - length encoded_data mod 8 in
  let encoded_data := encoded_data ++ replicate padding false in
  let padded_info := format_08b padding in
  Ok (padded_info ++ encoded_data).

(** ** decode_data *)

(** [node.char] where [node] may be [None]. *)
Definition deref (node : option (HuffmanNode Symbol)) : Result (HuffmanNode Symbol) :=
  match node with
  | Some n => Ok n
  | None => Raise AttributeError
  end.

(** The [for bit in encoded_data] loop; returns [decoded_data] and the
    node the walk stopped at. *)
Fixpoint decode_loop (root : HuffmanNode Symbol) (encoded_data : bitstring)
    (current_node : HuffmanNode Symbol) (decoded_data : list Symbol)
    : Result (list Symbol * HuffmanNode Symbol) :=
  match encoded_data with
  | [] => Ok (decoded_data, current_node)
  | bit :: encoded_data =>
      current_node ← deref (if bit then right current_node else left current_node);
      if truthy (char current_node) then
        match char current_node with
        | Some c => decode_loop root encoded_data root (decoded_data ++ [c])
        | None => decode_loop root encoded_data current_node decoded_data
        end
      else decode_loop root encoded_data current_node decoded_data
  end.

Definition decode_data (encoded_data : bitstring) (root : HuffmanNode Symbol)
    : Result (list Symbol) :=
  padding ← int_2 (slice encoded_data 0 8);
  let encoded_data := slice encoded_data 8 (- Z.of_nat padding) in
  '(decoded_data, _) ← decode_loop root encoded_data root [];
  Ok decoded_data.

(** ** The coding steps of huffman_compress and huffman_decompress

    What the two functions compute between reading the input file and
    writing the output file; the frequency table and the bit stream, which
    the program carries from one to the other in the compressed file, are
    passed as values. *)

Definition compress (data : list Symbol) : Result bitstring :=
  let frequency := build_frequency_dict data in
  huffman_tree ← build_huffman_tree frequency;
  let codes := build_codes huffman_tree in
  encode_data data codes.

Definition decompress (frequency : dict Symbol nat) (encoded_data : bitstring)
    : Result (list Symbol) :=
  huffman_tree ← build_huffman_tree frequency;
  decode_data encoded_data huffman_tree.

End Kompresor.

(* ===================================================================== *)
(** * The compressed file: huffman_compress and huffman_decompress

    The two functions between their calls to [open]: [huffman_compress]
    from the text it has read to the bytes it writes, [huffman_decompress]
    from the bytes of the file to the text it writes.  A character is its
    code point, a byte a number below 256, and the file object of
    [huffman_decompress] is the list of the bytes not yet read.  Failures
    of the file system itself are not part of the model. *)
(* ===================================================================== *)

Module PyIO.

(** What a [try] block of the two functions can catch: the exceptions of
    the coding functions and those of the conversions to and from bytes. *)
Inductive Raised : Set :=
| Builtin (e : Exception)
| OverflowError
| UnicodeEncodeError
| UnicodeDecodeError.

Inductive Attempt (A : Type) : Type :=
| Success (a : A)
| Failure (r : Raised)
| NoFuel.
Global Arguments Success {A} a.
Global Arguments Failure {A} r.
Global Arguments NoFuel {A}.

Global Instance Attempt_ret : MRet Attempt := @Success.
Global Instance Attempt_bind : MBind Attempt := λ A B f m,
  match m with
  | Success a => f a
  | Failure r => Failure r
  | NoFuel => NoFuel
  end.

(** A call of one of the coding functions inside a [try] block. *)
Definition lift {A : Type} (m : Result A) : Attempt A :=
  match m with
  | Ok a => Success a
  | Raise e => Failure (Builtin e)
  | OutOfFuel => NoFuel
  end.

Definition bytes : Type := list nat.

(** [x.to_bytes(length, 'big')]: [OverflowError] when [x] needs more bytes. *)
Fixpoint to_bytes (x length : nat) {struct length} : Attempt bytes :=
  match length with
  | 0 => if decide (x = 0) then Success [] else Failure OverflowError
  | S length => b ← to_bytes (x / 256) length; Success (b ++ [x mod 256])
  end.

(** [int.from_bytes(b, 'big')]. *)
Definition from_bytes (b : bytes) : nat :=
  foldl (λ acc d, 256 * acc + d) 0 b.

(** [char.encode()]: the UTF-8 bytes of a character; a surrogate (U+D800
    to U+DFFF) cannot be encoded.  A character is a code point below
    0x110000; a larger number stands for no character and is given the
    same failure. *)
Definition encode (char : nat) : Attempt bytes :=
  if decide (char < 128) then Success [char]
  else if decide (char < 2048) then
    Success [192 + char / 64; 128 + char mod 64]
  else if decide (char < 256 * 256) then
    if decide (216 * 256 ≤ char < 224 * 256) then Failure UnicodeEncodeError
    else Success [224 + char / 4096; 128 + char / 64 mod 64; 128 + char mod 64]
  else if decide (char < 17 * (256 * 256)) then
    Success [240 + char / (64 * 4096); 128 + char / 4096 mod 64;
             128 + char / 64 mod 64; 128 + char mod 64]
  else Failure UnicodeEncodeError.

(** [f.read(n)]: up to [n] bytes, and the file after them. *)
Definition read (f : bytes) (n : nat) : bytes * bytes := (take n f, drop n f).

(** [f.read(1).decode()]: the string read is empty at the end of the file
    ([None] here), one ASCII character for a byte below 128, and cannot be
    decoded for any other single byte. *)
Definition read_char (f : bytes) : Attempt (option nat * bytes) :=
  match f with
  | [] => Success (None, [])
  | b :: f =>
      if decide (b < 128) then Success (Some b, f)
      else Failure UnicodeDecodeError
  end.

(** [range(0, stop, 8)]. *)
Definition range_8 (stop : nat) : list nat :=
  (λ k, 8 * k) <$> seq 0 ((stop + 7) / 8).

(** [bytearray(int(s[i:i+8], 2) for i in indices)]; a [bytearray] accepts
    numbers below 256 only. *)
Fixpoint bytearray_of_bits (s : bitstring) (indices : list nat) : Result bytes :=
  match indices with
  | [] => Ok []
  | i :: indices =>
      v ← int_2 (slice s (Z.of_nat i) (Z.of_nat (i + 8)));
      if decide (v < 256) then
        rest ← bytearray_of_bits s indices;
        Ok (v :: rest)
      else Raise ValueError
  end.

(** ["".join(f"{int.from_bytes(byte, 'big'):08b}" for byte in ...)] over
    the bytes read one at a time until the file ends. *)
Definition bits_of_bytes (f : bytes) : bitstring :=
  mjoin ((λ byte, format_08b (from_bytes [byte])) <$> f).

End PyIO.
Import PyIO.

(** How a call of one of the two functions ends: it returns (with the
    bytes or the text it wrote), it prints the diagnostic of its reading or
    of its writing step and calls [sys.exit], or an exception leaves it. *)
Inductive Phase : Set := reading | writing.

Inductive Outcome (A : Type) : Type :=
| Returns (a : A)
| Exits (status : nat) (phase : Phase) (cause : Raised)
| Propagates (e : Exception)
| Unfinished.
Global Arguments Returns {A} a.
Global Arguments Exits {A} status phase cause.
Global Arguments Propagates {A} e.
Global Arguments Unfinished {A}.

(** A call of a coding function outside the [try] blocks. *)
Definition uncaught {A B : Type} (m : Result A) (k : A → Outcome B) : Outcome B :=
  match m with
  | Ok a => k a
  | Raise e => Propagates e
  | OutOfFuel => Unfinished
  end.

(** [try: ... except Exception as e: print(...); sys.exit(1)]. *)
Definition try_except {A B : Type} (phase : Phase) (body : Attempt A)
    (k : A → Outcome B) : Outcome B :=
  match body with
  | Success a => k a
  | Failure r => Exits 1 phase r
  | NoFuel => Unfinished
  end.

(** The loop that writes one record for each entry of the table. *)
Fixpoint write_table (frequency : list (nat * nat)) : Attempt bytes :=
  match frequency with
  | [] => Success []
  | (char, freq) :: frequency =>
      b1 ← encode char;
      b2 ← to_bytes freq 4;
      rest ← write_table frequency;
      Success (b1 ++ b2 ++ rest)
  end.

(** What the [with] block of [huffman_compress] writes. *)
Definition write_compressed (frequency : dict nat nat) (encoded_data : bitstring)
    : Attempt bytes :=
  count ← to_bytes (length frequency) 2;
  table ← write_table (items frequency);
  encoded_bytes ← lift (bytearray_of_bits encoded_data (range_8 (length encoded_data)));
  Success (count ++ table ++ encoded_bytes).

Definition huffman_compress (data : list nat) : Outcome bytes :=
  let frequency := build_frequency_dict data in
  uncaught (build_huffman_tree frequency) (λ huffman_tree,
  let codes := build_codes huffman_tree in
  uncaught (encode_data data codes) (λ encoded_data,
  try_except writing (write_compressed frequency encoded_data) Returns)).

(** The dict comprehension of [huffman_decompress]: for each of the
    [count] records the key is read before the value, the order in which
    Python 3.8 and later evaluate the two expressions. *)
Fixpoint read_table (count : nat) (f : bytes) (frequency : dict (option nat) nat)
    : Attempt (dict (option nat) nat * bytes) :=
  match count with
  | 0 => Success (frequency, f)
  | S count =>
      '(key, f) ← read_char f;
      let '(b, f) := read f 4 in
      read_table count f (dict_setitem frequency key (from_bytes b))
  end.

(** [build_huffman_tree] on the table that [huffman_decompress] reads,
    whose keys are strings of length one or, at the end of the file, the
    empty string.  The program looks at [char] only in conditions and in
    their true branch, where the empty string counts as [None] does; the
    node of the empty string therefore has [char] [None]. *)
Definition build_huffman_tree_read (frequency : dict (option nat) nat)
    : Result (HuffmanNode nat) :=
  let priority_queue :=
    (λ '(char, freq), HuffmanNode_init char freq) <$> items frequency in
  priority_queue ← heapq.heapify HuffmanNode_lt priority_queue;
  priority_queue ← merge_loop (length priority_queue) priority_queue;
  getitem priority_queue 0.

(** What the [with] block of [huffman_decompress] reads and builds. *)
Definition read_compressed (f : bytes) : Attempt (HuffmanNode nat * bitstring) :=
  let '(b, f) := read f 2 in
  let frequency_length := from_bytes b in
  '(frequency, f) ← read_table frequency_length f [];
  huffman_tree ← lift (build_huffman_tree_read frequency);
  let encoded_data := bits_of_bytes f in
  Success (huffman_tree, encoded_data).

Definition huffman_decompress (f : bytes) : Outcome (list nat) :=
  try_except reading (read_compressed f) (λ '(huffman_tree, encoded_data),
  uncaught (decode_data encoded_data huffman_tree) Returns).

(* ===================================================================== *)
(** * Specification vocabulary *)
(* ===================================================================== *)

(** ** Binary heaps stored in a list *)
Module heap_order.
Section HeapOrder.
Context {A : Type}.
Variable key : A → nat.

(** [c] is one of the two children of index [p]. *)
Definition child (p c : nat) : Prop := c = 2 * p + 1 ∨ c = 2 * p + 2.

(** Index [i] lies in the subtree rooted at index [s]. *)
Inductive below (s : nat) : nat → Prop :=
| below_root : below s s
| below_child p c : below s p → child p c → below s c.

(** Every parent at index [lo] or later is no larger than its children. *)
Definition ordered_from (lo : nat) (h : list A) : Prop :=
  ∀ p c x y, lo ≤ p → child p c →
    h !! p = Some x → h !! c = Some y → key x ≤ key y.

Definition is_heap (h : list A) : Prop := ordered_from 0 h.

(** The heap order from [lo] on, except around a hole at [pos] whose
    content is ignored: all pairs avoiding the hole are ordered, and the
    parent of the hole is no larger than the children of the hole. *)
Definition hole_inv (lo pos : nat) (h : list A) : Prop :=
  (∀ p c x y, lo ≤ p → child p c → p ≠ pos → c ≠ pos →
     h !! p = Some x → h !! c = Some y → key x ≤ key y) ∧
  (∀ p c x y, lo ≤ p → child p pos → child pos c →
     h !! p = Some x → h !! c = Some y → key x ≤ key y).

(** [item] is no larger than the children of index [pos]. *)
Definition fits (pos : nat) (item : A) (h : list A) : Prop :=
  ∀ c y, child pos c → h !! c = Some y → key item ≤ key y.
End HeapOrder.
End heap_order.
Import heap_order.

(** ** Code trees *)
Section TreeVocabulary.
Context {Symbol : Type}.
Implicit Types (n t : HuffmanNode Symbol).

(** Every node of the tree rooted at [n], the root first. *)
Fixpoint nodes n : list (HuffmanNode Symbol) :=
  match n with
  | mkHuffmanNode _ _ l r =>
      n :: match l with Some l => nodes l | None => [] end
        ++ match r with Some r => nodes r | None => [] end
  end.

(** A leaf is a node without children. *)
Definition is_leaf n : bool :=
  match left n, right n with
  | None, None => true
  | _, _ => false
  end.

(** The leaves below [n], left to right, as (symbol, frequency, depth),
    where [n] itself is at depth [d]. *)
Fixpoint leaves_at (d : nat) n : list (option Symbol * nat * nat) :=
  match n with
  | mkHuffmanNode c f None None => [(c, f, d)]
  | mkHuffmanNode _ _ l r =>
      match l with Some l => leaves_at (S d) l | None => [] end
      ++ match r with Some r => leaves_at (S d) r | None => [] end
  end.

(** The leaves of a tree as (symbol, frequency). *)
Definition leaves t : list (option Symbol * nat) := (leaves_at 0 t).*1.

(** Sum over a list of leaves of depth times frequency. *)
Definition cost (ls : list (option Symbol * nat * nat)) : nat :=
  sum_list_with (λ '(_, f, d), d * f) ls.

Definition weighted_path_length t : nat := cost (leaves_at 0 t).

(** The total frequency of the leaves of a tree. *)
Definition weight t : nat := sum_list (leaves t).*2.

(** The shape the builder produces: a leaf carries a symbol and has no
    children; an internal node carries no symbol, has two children and
    the sum of their frequencies. *)
Inductive strict : HuffmanNode Symbol → Prop :=
| strict_leaf c f : strict (mkHuffmanNode (Some c) f None None)
| strict_internal l r :
    strict l → strict r →
    strict (mkHuffmanNode None (freq l + freq r) (Some l) (Some r)).

(** The same shape, spelled out for a single node. *)
Definition node_shape n : Prop :=
  (is_Some (char n) ∧ left n = None ∧ right n = None) ∨
  (char n = None ∧
   ∃ l r, left n = Some l ∧ right n = Some r ∧ freq n = freq l + freq r).

(** The leaves a frequency table asks for. *)
Definition table_leaves (frequency : dict Symbol nat) : list (option Symbol * nat) :=
  (λ '(c, f), (Some c, f)) <$> items frequency.

(** The symbols with a code below [n] and the bits leading to them,
    in the order [_build_codes_helper] visits them. *)
Fixpoint paths n : list (Symbol * bitstring) :=
  match n with
  | mkHuffmanNode c _ l r =>
      match c with Some s => [(s, [])] | None => [] end
      ++ match l with Some l => prod_map id (cons false) <$> paths l | None => [] end
      ++ match r with Some r => prod_map id (cons true) <$> paths r | None => [] end
  end.

(** The node reached from [n] by following [bits], "0" to the left and
    "1" to the right. *)
Fixpoint descend n (bits : bitstring) {struct bits} : option (HuffmanNode Symbol) :=
  match bits with
  | [] => Some n
  | bit :: bits =>
      match (if bit then right n else left n) with
      | Some m => descend m bits
      | None => None
      end
  end.

(** [p] is a proper prefix of [q]. *)
Definition proper_prefix (p q : bitstring) : Prop := p `prefix_of` q ∧ p ≠ q.
End TreeVocabulary.

(** ** Counting *)
Section CountVocabulary.
Context {Symbol : Type} `{EqDecision Symbol}.

(** How often [c] occurs in [data]. *)
Definition occurrences (c : Symbol) (data : list Symbol) : nat :=
  length (filter (λ x, x = c) data).

(** The distinct symbols of [data], each at the place of its first
    occurrence. *)
Definition distinct_in_order (data : list Symbol) : list Symbol :=
  foldl (λ seen c, if decide (c ∈ seen) then seen else seen ++ [c]) [] data.
End CountVocabulary.

(** ** Compressed files *)

(** A frequency table as [huffman_decompress] reads it back: each key a
    string of one character. *)
Definition as_read (frequency : dict nat nat) : dict (option nat) nat :=
  prod_map Some id <$> frequency.

(** ** Depth lists and Kraft's inequality *)

(** The sum over [ds] of [2 ^ (M - d)]: the Kraft sum scaled by [2 ^ M]. *)
Definition kraft_sum (M : nat) (ds : list nat) : nat :=
  sum_list_with (λ d, 2 ^ (M - d)) ds.

(** The depths [ds] satisfy Kraft's inequality, as the leaf depths of every
    binary tree do. *)
Definition kraft (ds : list nat) : Prop :=
  ∃ M, Forall (λ d, d ≤ M) ds ∧ kraft_sum M ds ≤ 2 ^ M.

(** Sum of depth times weight over (weight, depth) pairs. *)
Definition pair_cost (ls : list (nat * nat)) : nat :=
  sum_list_with (λ '(w, d), d * w) ls.

(** ** The cost of greedy merging *)

(** [greedy ws c]: merging the two smallest weights of [ws] into their sum
    until one weight is left adds up to [c]. *)
Inductive greedy : list nat → nat → Prop :=
| greedy_one w : greedy [w] 0
| greedy_merge ws a b ws' c :
    ws ≡ₚ a :: b :: ws' →
    (∀ w, w ∈ ws → a ≤ w) → (∀ w, w ∈ ws' → b ≤ w) →
    greedy ((a + b) :: ws') c →
    greedy ws (a + b + c).

(* ===================================================================== *)
(** * Example inputs *)
(* ===================================================================== *)

(** The table of "AAAAABBBCC" and the tree the builder returns for it. *)
Definition example_frequency : dict ascii nat :=
  [("A", 5); ("B", 3); ("C", 2)]%char.

Definition example_tree : HuffmanNode ascii :=
  mkHuffmanNode None 10
    (Some (mkHuffmanNode (Some "A"%char) 5 None None))
    (Some (mkHuffmanNode None 5
             (Some (mkHuffmanNode (Some "C"%char) 2 None None))
             (Some (mkHuffmanNode (Some "B"%char) 3 None None)))).

Definition example_data : list ascii :=
  ["A"; "A"; "A"; "A"; "A"; "B"; "B"; "B"; "C"; "C"]%char.

(** "BBCCCABCACCB": twelve symbols, 18 code bits, a stream of four bytes. *)
Definition cut_data : list ascii :=
  ["B"; "B"; "C"; "C"; "C"; "A"; "B"; "C"; "A"; "C"; "C"; "B"]%char.

Definition cut_tree : HuffmanNode ascii :=
  mkHuffmanNode None 12
    (Some (mkHuffmanNode (Some "C"%char) 6 None None))
    (Some (mkHuffmanNode None 6
             (Some (mkHuffmanNode (Some "A"%char) 2 None None))
             (Some (mkHuffmanNode (Some "B"%char) 4 None None)))).

(** The stream of [cut_data] without its last byte. *)
Definition cut_stream : bitstring :=
  [false; false; false; false; false; true; true; false;
   true; true; true; true; false; false; false; true;
   false; true; true; false; true; false; false; false].

(** "ABABABAB": eight code bits, already byte-aligned. *)
Definition aligned_data : list ascii :=
  ["A"; "B"; "A"; "B"; "A"; "B"; "A"; "B"]%char.

(** "AAA": one distinct symbol. *)
Definition single_data : list ascii := ["A"; "A"; "A"]%char.

(** A stream whose header reads 0, followed by one byte of payload. *)
Definition zero_header_stream : bitstring :=
  [false; false; false; false; false; false; false; false;
   true; false; true; true; false; false; true; false].

(** "abracadabra" as code points. *)
Definition abracadabra : list nat :=
  [97; 98; 114; 97; 99; 97; 100; 97; 98; 114; 97].

(** "żaba": its first character, U+017C, is written as two bytes. *)
Definition zaba : list nat := [380; 97; 98; 97].

(** "aaaa". *)
Definition aaaa : list nat := [97; 97; 97; 97].


(** The table, the tree and the compressed file of "abracadabra": five
    entries, 23 code bits, 31 bytes. *)
Definition abracadabra_frequency : dict nat nat :=
  [(97, 5); (98, 2); (114, 2); (99, 1); (100, 1)].

Definition abracadabra_tree : HuffmanNode nat :=
  mkHuffmanNode None 11
    (Some (mkHuffmanNode (Some 97) 5 None None))
    (Some (mkHuffmanNode None 6
             (Some (mkHuffmanNode None 2
                      (Some (mkHuffmanNode (Some 100) 1 None None))
                      (Some (mkHuffmanNode (Some 99) 1 None None))))
             (Some (mkHuffmanNode None 4
                      (Some (mkHuffmanNode (Some 114) 2 None None))
                      (Some (mkHuffmanNode (Some 98) 2 None None)))))).

Definition abracadabra_file : bytes :=
  [0; 5; 97; 0; 0; 0; 5; 98; 0; 0; 0; 2; 114; 0; 0; 0; 2; 99; 0; 0; 0; 1;
   100; 0; 0; 0; 1; 1; 124; 168; 248].

(** The compressed file of "żaba". *)
Definition zaba_file : bytes :=
  [0; 3; 197; 188; 0; 0; 0; 1; 97; 0; 0; 0; 2; 98; 0; 0; 0; 1; 2; 208].

(* ===================================================================== *)
(** * Python primitives: basic facts *)
(* ===================================================================== *)

Section PyFacts.
Context {A : Type}.
Implicit Types (l : list A) (x : A).

Lemma bind_Ok {B C : Type} (b : B) (f : B → Result C) : (Ok b ≫= f) = f b.
Proof. reflexivity. Qed.

Lemma getitem_Ok l i x : l !! i = Some x → getitem l i = Ok x.
Proof. unfold getitem. by intros ->. Qed.

Lemma setitem_Ok l i x : i < length l → setitem l i x = Ok (<[i:=x]> l).
Proof. unfold setitem. intros. by rewrite decide_True. Qed.

Lemma pop_snoc l x : pop (l ++ [x]) = Ok (x, l).
Proof. unfold pop. by rewrite last_snoc, removelast_last. Qed.

Lemma pop_nil : pop (@nil A) = Raise IndexError.
Proof. reflexivity. Qed.

Lemma insert_head_perm l j x y :
  l !! j = Some y → y :: <[j:=x]> l ≡ₚ x :: l.
Proof.
  revert j. induction l as [|a l IH]; intros [|j] Hj; simplify_eq/=.
  - apply perm_swap.
  - rewrite (perm_swap a y), (IH j Hj). apply perm_swap.
Qed.

(** Moving a hole: writing [y] (read at [j]) to [i] and the pending item
    to [j] rearranges the list with the pending item at [i]. *)
Lemma insert_swap_perm l i j x y :
  l !! j = Some y → i < length l → i ≠ j →
  <[j:=x]> (<[i:=y]> l) ≡ₚ <[i:=x]> l.
Proof.
  revert i j. induction l as [|a l IH]; intros [|i] [|j] Hj Hi Hne;
    simplify_eq/=; try lia.
  - by apply insert_head_perm.
  - rewrite <- (list_insert_insert_eq l i x y). symmetry.
    apply insert_head_perm, list_lookup_insert_eq. lia.
  - f_equiv. apply IH; [done | lia | congruence].
Qed.
End PyFacts.

(* ===================================================================== *)
(** * heapq: permutation and heap order *)
(* ===================================================================== *)

Module heapq_facts.
Import heapq.

(** Splits a lookup in an updated list into the updated and the other case. *)
Ltac lookup_cases :=
  repeat match goal with
  | H : <[_:=_]> _ !! _ = Some _ |- _ =>
      apply list_lookup_insert_Some in H as [(? & ? & ?) | (? & ?)]
  end; simplify_eq.

Section Facts.
Context {A : Type} (less : A → A → bool) (key : A → nat).
Hypothesis less_key : ∀ x y, less x y = bool_decide (key x < key y).
Implicit Types (h heap : list A) (x y : A).

Lemma below_le s i : below s i → s ≤ i.
Proof. induction 1 as [|p c _ IH [-> | ->]]; lia. Qed.

Lemma below_parent s i : below s i → s < i → below s ((i - 1) / 2).
Proof.
  destruct 1 as [|p c Hp [-> | ->]]; [lia | |]; intros _.
  - by replace ((2 * p + 1 - 1) / 2) with p by lia.
  - by replace ((2 * p + 2 - 1) / 2) with p by lia.
Qed.

Lemma below_0 i : below 0 i.
Proof.
  induction (lt_wf i) as [i _ IH]. destruct (decide (i = 0)) as [->|Hi].
  - constructor.
  - apply (below_child _ ((i - 1) / 2)); [apply IH; lia | unfold child; lia].
Qed.

Lemma hole_inv_insert lo pos h x :
  hole_inv key lo pos h → hole_inv key lo pos (<[pos:=x]> h).
Proof.
  intros [Ha Hb]. split.
  - intros p c a b Hlo Hch Hp Hc Hpa Hcb.
    rewrite list_lookup_insert_ne in Hpa, Hcb by done. eauto.
  - intros p c a b Hlo Hch1 Hch2 Hpa Hcb.
    rewrite list_lookup_insert_ne in Hpa, Hcb by (unfold child in *; lia). eauto.
Qed.

(** Storing the pending item in the hole restores the order when the
    item is no smaller than the parent of the hole and no larger than
    its children. *)
Lemma place_ordered lo pos h x :
  hole_inv key lo pos h → fits key pos x h →
  (∀ p z, lo ≤ p → child p pos → h !! p = Some z → key z ≤ key x) →
  ordered_from key lo (<[pos:=x]> h).
Proof.
  intros [Ha Hb] Hfit Hpar p c a b Hlo Hch Hpa Hcb.
  lookup_cases; try (unfold child in *; lia); eauto.
Qed.

(** One step of [_siftdown]: the parent moves down into the hole. *)
Lemma hole_up lo pos h parent :
  lo < pos → h !! ((pos - 1) / 2) = Some parent → lo ≤ (pos - 1) / 2 →
  hole_inv key lo pos h →
  hole_inv key lo ((pos - 1) / 2) (<[pos:=parent]> h).
Proof.
  intros Hpos Hparent Hlo [Ha Hb]. split.
  - intros p c a b Hlop Hch Hp Hc Hpa Hcb.
    lookup_cases; try (unfold child in *; lia); eauto.
    eapply (Hb _ c _ _ Hlo); eauto; unfold child; lia.
  - intros p c a b Hlop Hch1 Hch2 Hpa Hcb.
    lookup_cases; try (unfold child in *; lia).
    + eapply (Ha p ((c - 1) / 2)); eauto; unfold child in *; lia.
    + etrans; [eapply (Ha p ((pos - 1) / 2))|eapply (Ha ((pos - 1) / 2) c)];
        eauto; unfold child in *; lia.
Qed.

Lemma fits_up lo pos h parent x :
  lo < pos → h !! ((pos - 1) / 2) = Some parent → lo ≤ (pos - 1) / 2 →
  key x ≤ key parent →
  hole_inv key lo pos h →
  fits key ((pos - 1) / 2) x (<[pos:=parent]> h).
Proof.
  intros Hpos Hparent Hlo Hx [Ha Hb] c y Hch Hcy.
  lookup_cases; [done|].
  etrans; [exact Hx|]. eapply (Ha ((pos - 1) / 2) c); eauto; unfold child in *; lia.
Qed.

Lemma siftdown_loop_spec startpos fuel heap pos newitem :
  pos ≤ fuel → pos < length heap → below startpos pos →
  ∃ heap' pos',
    siftdown_loop less fuel heap startpos pos newitem = Ok (heap', pos') ∧
    length heap' = length heap ∧ pos' < length heap ∧
    <[pos':=newitem]> heap' ≡ₚ <[pos:=newitem]> heap ∧
    (hole_inv key startpos pos heap → fits key pos newitem heap →
     ordered_from key startpos (<[pos':=newitem]> heap')).
Proof.
  revert heap pos.
  induction fuel as [|fuel IH]; intros heap pos Hfuel Hlen Hbelow;
    pose proof (below_le _ _ Hbelow) as Hle; simpl;
    destruct (decide (pos > startpos)) as [Hgt|Hngt]; try lia.
  - exists heap, pos. split_and!; try done. intros Hinv Hfit.
    apply place_ordered with (lo := startpos); try done.
    intros p z ? Hch _. unfold child in Hch. lia.
  - destruct (lookup_lt_is_Some_2 heap ((pos - 1) / 2)) as [parent Hparent]; [lia|].
    rewrite (getitem_Ok _ _ _ Hparent). simpl.
    pose proof (below_parent _ _ Hbelow Hgt) as Hbelow'.
    pose proof (below_le _ _ Hbelow') as Hle'.
    rewrite less_key. case_bool_decide as Hlt.
    + rewrite setitem_Ok by done. simpl.
      destruct (IH (<[pos:=parent]> heap) ((pos - 1) / 2))
        as (heap' & pos' & -> & Hlen' & Hpos' & Hperm & Hord);
        [lia | rewrite length_insert; lia | done |].
      rewrite length_insert in Hlen', Hpos'.
      exists heap', pos'. split_and!; try done.
      * rewrite Hperm. apply insert_swap_perm; [done | done | lia].
      * intros Hinv Hfit. apply Hord.
        -- by apply hole_up.
        -- eapply fits_up; eauto. lia.
    + exists heap, pos. split_and!; try done. intros Hinv Hfit.
      apply place_ordered with (lo := startpos); try done.
      intros p z ? Hch Hz. replace p with ((pos - 1) / 2) in Hz
        by (unfold child in Hch; lia). simplify_eq. lia.
  - exists heap, pos. split_and!; try done. intros Hinv Hfit.
    apply place_ordered with (lo := startpos); try done.
    intros p z ? Hch _. unfold child in Hch. lia.
Qed.

(** One step of the [_siftup] loop: the smaller child moves up into the
    hole. *)
Lemma hole_down lo pos h c x :
  child pos c → h !! c = Some x → lo ≤ pos → pos < length h →
  fits key pos x h →
  hole_inv key lo pos h →
  hole_inv key lo c (<[pos:=x]> h).
Proof.
  intros Hc Hx Hlo Hlen Hsmall [Ha Hb]. split.
  - intros p c0 a b Hlop Hch Hp Hc0 Hpa Hcb.
    lookup_cases; try (unfold child in *; lia); eauto.
  - intros p c0 a b Hlop Hch1 Hch2 Hpa Hcb.
    assert (p = pos) as -> by (unfold child in *; lia).
    rewrite list_lookup_insert_eq in Hpa by done.
    rewrite list_lookup_insert_ne in Hcb by (unfold child in *; lia).
    simplify_eq. eapply (Ha c c0); eauto; unfold child in *; lia.
Qed.

Lemma siftup_loop_spec startpos fuel heap pos :
  length heap ≤ fuel + pos → pos < length heap → below startpos pos →
  ∃ heap' pos',
    siftup_loop less fuel heap (length heap) pos (2 * pos + 1) = Ok (heap', pos') ∧
    length heap' = length heap ∧ pos' < length heap ∧ below startpos pos' ∧
    length heap ≤ 2 * pos' + 1 ∧
    (∀ newitem, <[pos':=newitem]> heap' ≡ₚ <[pos:=newitem]> heap) ∧
    (hole_inv key startpos pos heap → hole_inv key startpos pos' heap').
Proof.
  revert heap pos.
  induction fuel as [|fuel IH]; intros heap pos Hfuel Hlen Hbelow;
    pose proof (below_le _ _ Hbelow) as Hle; cbn [siftup_loop];
    destruct (decide (2 * pos + 1 < length heap)) as [Hlt|Hnlt]; try lia.
  - destruct (lookup_lt_is_Some_2 heap (2 * pos + 1)) as [cl Hcl]; [lia|].
    set (endpos := length heap).
    assert (∃ c child,
      (if decide (2 * pos + 1 + 1 < endpos)
       then c ← getitem heap (2 * pos + 1);
            r ← getitem heap (2 * pos + 1 + 1);
            Ok (if negb (less c r) then 2 * pos + 1 + 1 else 2 * pos + 1)
       else Ok (2 * pos + 1)) = Ok c ∧
      heap_order.child pos c ∧ heap !! c = Some child ∧
      fits key pos child heap) as (c & child & -> & Hc & Hchild & Hsmall).
    { case_decide as Hr.
      - destruct (lookup_lt_is_Some_2 heap (2 * pos + 1 + 1)) as [cr Hcr]; [done|].
        rewrite (getitem_Ok _ _ _ Hcl), (getitem_Ok _ _ _ Hcr). simpl.
        rewrite less_key. case_bool_decide as Hk; simpl.
        + exists (2 * pos + 1), cl. split_and!; [done | left; lia | done |].
          intros c' y [-> | ->] Hy; simplify_eq; [lia|].
          replace (2 * pos + 2) with (2 * pos + 1 + 1) in Hy by lia.
          simplify_eq. lia.
        + exists (2 * pos + 1 + 1), cr. split_and!; [done | right; lia | done |].
          intros c' y [-> | ->] Hy; simplify_eq; [lia|].
          replace (2 * pos + 2) with (2 * pos + 1 + 1) in Hy by lia.
          simplify_eq. lia.
      - exists (2 * pos + 1), cl. split_and!; [done | left; lia | done |].
        intros c' y [-> | ->] Hy; simplify_eq; [lia|].
        apply lookup_lt_Some in Hy. unfold endpos in Hr. lia. }
    pose proof (lookup_lt_Some _ _ _ Hchild) as Hclen.
    rewrite bind_Ok, (getitem_Ok _ _ _ Hchild), bind_Ok, setitem_Ok, bind_Ok by done.
    destruct (IH (<[pos:=child]> heap) c)
      as (heap' & pos' & Heq & Hlen' & Hpos' & Hbelow' & Hleaf & Hperm & Hinv').
    { rewrite length_insert. unfold heap_order.child in Hc. lia. }
    { by rewrite length_insert. }
    { by eapply below_child. }
    rewrite length_insert in Heq, Hlen', Hpos', Hleaf.
    exists heap', pos'. split_and!; try done.
    + intros newitem. rewrite Hperm.
      apply insert_swap_perm; [done | done | unfold heap_order.child in Hc; lia].
    + intros Hinv. apply Hinv'. by apply hole_down.
  - exists heap, pos. split_and!; try done. lia.
Qed.

Lemma _siftdown_spec startpos heap pos newitem :
  heap !! pos = Some newitem → below startpos pos →
  ∃ heap',
    _siftdown less heap startpos pos = Ok heap' ∧ heap' ≡ₚ heap ∧
    (hole_inv key startpos pos heap → fits key pos newitem heap →
     ordered_from key startpos heap').
Proof.
  intros Hpos Hbelow. unfold _siftdown.
  rewrite (getitem_Ok _ _ _ Hpos), bind_Ok.
  pose proof (lookup_lt_Some _ _ _ Hpos) as Hlen.
  destruct (siftdown_loop_spec startpos pos heap pos newitem)
    as (heap' & pos' & -> & Hlen' & Hpos' & Hperm & Hord); [done..|].
  rewrite bind_Ok, setitem_Ok by lia.
  eexists. split_and!; [done| |done].
  by rewrite Hperm, list_insert_id.
Qed.

Lemma hole_inv_start pos h :
  ordered_from key (pos + 1) h → hole_inv key pos pos h.
Proof.
  intros Hfrom. split.
  - intros p c a b Hlo Hch Hp Hc Hpa Hcb. apply (Hfrom p c); [lia|done..].
  - intros p c a b Hlo Hch. unfold child in Hch. lia.
Qed.

Lemma _siftup_spec heap pos :
  pos < length heap →
  ∃ heap',
    _siftup less heap pos = Ok heap' ∧ heap' ≡ₚ heap ∧
    (ordered_from key (pos + 1) heap → ordered_from key pos heap').
Proof.
  intros Hlen. unfold _siftup.
  destruct (lookup_lt_is_Some_2 heap pos) as [newitem Hnew]; [done|].
  rewrite (getitem_Ok _ _ _ Hnew), bind_Ok.
  destruct (siftup_loop_spec pos (length heap) heap pos)
    as (heap1 & pos1 & -> & Hlen1 & Hpos1 & Hbelow1 & Hleaf & Hperm & Hinv);
    [lia | done | constructor |].
  rewrite bind_Ok, setitem_Ok, bind_Ok by lia.
  destruct (_siftdown_spec pos (<[pos1:=newitem]> heap1) pos1 newitem)
    as (heap' & -> & Hperm' & Hord);
    [apply list_lookup_insert_eq; lia | done |].
  exists heap'. split_and!; [done| |].
  - by rewrite Hperm', Hperm, list_insert_id.
  - intros Hfrom. apply Hord.
    + by apply hole_inv_insert, Hinv, hole_inv_start.
    + intros c y Hc Hy. apply lookup_lt_Some in Hy.
      rewrite length_insert in Hy. unfold child in Hc. lia.
Qed.

Lemma heappush_spec heap item :
  ∃ heap',
    heappush less heap item = Ok heap' ∧ heap' ≡ₚ item :: heap ∧
    (is_heap key heap → is_heap key heap').
Proof.
  unfold heappush. rewrite length_app. simpl.
  replace (length heap + 1 - 1) with (length heap) by lia.
  destruct (_siftdown_spec 0 (heap ++ [item]) (length heap) item)
    as (heap' & -> & Hperm & Hord).
  { by rewrite lookup_app_r, Nat.sub_diag. }
  { apply below_0. }
  exists heap'. split_and!; [done| |].
  - by rewrite Hperm, <- Permutation_cons_append.
  - intros Hheap. apply Hord.
    + split.
      * intros p c a b _ Hch Hp Hc Hpa Hcb.
        apply lookup_snoc_Some in Hpa as [[_ Hpa] | [? _]]; [|done].
        apply lookup_snoc_Some in Hcb as [[_ Hcb] | [? _]]; [|done].
        apply (Hheap p c); [lia|done..].
      * intros p c a b _ _ Hch _ Hcb. apply lookup_lt_Some in Hcb.
        rewrite length_app in Hcb. simpl in Hcb. unfold child in Hch. lia.
    + intros c y Hch Hcy. apply lookup_lt_Some in Hcy.
      rewrite length_app in Hcy. simpl in Hcy. unfold child in Hch. lia.
Qed.

(** The root of a heap is a smallest element. *)
Lemma root_min h x :
  is_heap key h → h !! 0 = Some x → ∀ y, y ∈ h → key x ≤ key y.
Proof.
  intros Hheap Hroot y [i Hi]%list_elem_of_lookup. revert y Hi.
  induction (lt_wf i) as [i _ IH]; intros y Hi.
  destruct (decide (i = 0)) as [->|Hne]; [by simplify_eq|].
  destruct (lookup_lt_is_Some_2 h ((i - 1) / 2)) as [z Hz].
  { apply lookup_lt_Some in Hi. lia. }
  etrans; [apply (IH ((i - 1) / 2)); [lia|done]|].
  apply (Hheap ((i - 1) / 2) i); [lia | unfold child; lia | done..].
Qed.

Lemma heappop_spec heap :
  heap ≠ [] →
  ∃ item heap',
    heappop less heap = Ok (item, heap') ∧ heap ≡ₚ item :: heap' ∧
    (is_heap key heap →
     is_heap key heap' ∧ ∀ y, y ∈ heap → key item ≤ key y).
Proof.
  intros Hne. destruct (exists_last Hne) as (l & lastelt & ->).
  unfold heappop. rewrite pop_snoc, bind_Ok.
  destruct l as [|returnitem rest]; simpl.
  - exists lastelt, []. split_and!; [done..|]. intros _. split.
    + by intros p c a b _ _ ?.
    + by intros y ->%list_elem_of_singleton.
  - destruct (_siftup_spec (lastelt :: rest) 0)
      as (heap' & -> & Hperm & Hord); [simpl; lia|].
    rewrite bind_Ok. exists returnitem, heap'. split_and!; [done| |].
    + by rewrite Hperm, <- Permutation_cons_append.
    + intros Hheap. split.
      * apply Hord. intros p c a b Hlo Hch Hpa Hcb.
        destruct p as [|p]; [lia|]. destruct c as [|c]; [unfold child in Hch; lia|].
        simpl in Hpa, Hcb.
        apply (Hheap (S p) (S c)); [lia | done | |]; simpl;
          by apply lookup_app_l_Some.
      * by apply root_min.
Qed.

Lemma heapify_loop k h :
  k ≤ length h / 2 → ordered_from key k h →
  ∃ h',
    for_each (_siftup less) (rev (seq 0 k)) h = Ok h' ∧ h' ≡ₚ h ∧
    is_heap key h'.
Proof.
  revert h. induction k as [|k IH]; intros h Hk Hord.
  - by exists h.
  - rewrite seq_S, rev_unit. simpl.
    destruct (_siftup_spec h k) as (h1 & -> & Hperm & Hord1); [lia|].
    rewrite bind_Ok.
    destruct (IH h1) as (h' & -> & Hperm' & Hheap).
    { rewrite (Permutation_length Hperm). lia. }
    { apply Hord1. by rewrite Nat.add_1_r. }
    exists h'. split_and!; [done| |done]. by rewrite Hperm'.
Qed.

Lemma heapify_spec (l : list A) :
  ∃ heap, heapify less l = Ok heap ∧ heap ≡ₚ l ∧ is_heap key heap.
Proof.
  apply heapify_loop; [done|].
  intros p c a b Hlo Hch _ Hcb. apply lookup_lt_Some in Hcb.
  unfold child in Hch. lia.
Qed.
End Facts.
End heapq_facts.

(* ===================================================================== *)
(** * Code trees: basic facts *)
(* ===================================================================== *)

Section TreeFacts.
Context {Symbol : Type}.
Implicit Types (n t l r : HuffmanNode Symbol).

(** Induction over a node and its children, if any. *)
Lemma HuffmanNode_children_ind (P : HuffmanNode Symbol → Prop) :
  (∀ c f (ol or : option (HuffmanNode Symbol)),
     (∀ l, ol = Some l → P l) → (∀ r, or = Some r → P r) →
     P (mkHuffmanNode c f ol or)) →
  ∀ n, P n.
Proof.
  intros Hstep. fix IH 1. intros [c f l r]. apply Hstep.
  - destruct l as [l'|]; intros ? [= <-]. apply IH.
  - destruct r as [r'|]; intros ? [= <-]. apply IH.
Qed.

Lemma leaves_at_S d n :
  leaves_at (S d) n = (λ '(c, f, k), (c, f, S k)) <$> leaves_at d n.
Proof.
  revert d. induction n as [c f l r IHl IHr] using HuffmanNode_children_ind.
  intros d. destruct l as [l|], r as [r|]; simpl; rewrite ?fmap_app;
    rewrite ?(IHl l), ?(IHr r) by done; try done.
  all: by rewrite ?app_nil_r.
Qed.

Lemma leaves_at_leaves d n : (leaves_at d n).*1 = leaves n.
Proof.
  induction d as [|d IH]; [done|]. rewrite leaves_at_S, <- IH.
  rewrite <- list_fmap_compose. apply list_fmap_ext. by intros _ [[??]?] _.
Qed.

Lemma cost_leaves_at_S d n :
  cost (leaves_at (S d) n) = cost (leaves_at d n) + weight n.
Proof.
  unfold weight. rewrite <- (leaves_at_leaves d), leaves_at_S. unfold cost.
  induction (leaves_at d n) as [|[[c f] k] ls IH]; csimpl; [done|].
  rewrite IH. lia.
Qed.

Lemma leaves_internal c f l r :
  leaves (mkHuffmanNode c f (Some l) (Some r)) = leaves l ++ leaves r.
Proof. unfold leaves. simpl. by rewrite fmap_app, !leaves_at_leaves. Qed.

Lemma weight_strict t : strict t → weight t = freq t.
Proof.
  induction 1 as [c f|l r _ IHl _ IHr]; [unfold weight; simpl; lia|].
  unfold weight in *. rewrite leaves_internal, fmap_app, sum_list_with_app.
  simpl. lia.
Qed.

Lemma weighted_path_length_internal c f l r :
  weighted_path_length (mkHuffmanNode c f (Some l) (Some r)) =
  weighted_path_length l + weighted_path_length r + weight l + weight r.
Proof.
  unfold weighted_path_length. simpl. unfold cost at 1.
  rewrite sum_list_with_app. fold (cost (leaves_at 1 l)) (cost (leaves_at 1 r)).
  rewrite !cost_leaves_at_S. lia.
Qed.

Lemma greedy_perm ws ws' c : ws ≡ₚ ws' → greedy ws c → greedy ws' c.
Proof.
  intros Hperm Hg. destruct Hg as [w|ws a b ws0 c Hws Ha Hb Hg].
  - apply Permutation_singleton_l in Hperm as <-. constructor.
  - eapply greedy_merge; [by rewrite <- Hperm | | done..].
    intros w Hw. apply Ha. by rewrite Hperm.
Qed.
End TreeFacts.

(* ===================================================================== *)
(** * build_huffman_tree *)
(* ===================================================================== *)

Section BuilderFacts.
Context {Symbol : Type} `{EqDecision Symbol}.
Implicit Types (n t : HuffmanNode Symbol) (pq : list (HuffmanNode Symbol)).

Lemma HuffmanNode_lt_freq (x y : HuffmanNode Symbol) :
  HuffmanNode_lt x y = bool_decide (freq x < freq y).
Proof. reflexivity. Qed.

Lemma merge_loop_spec fuel pq :
  pq ≠ [] → length pq ≤ S fuel → Forall strict pq → is_heap freq pq →
  ∃ t c,
    merge_loop fuel pq = Ok [t] ∧ strict t ∧
    leaves t ≡ₚ mjoin (leaves <$> pq) ∧
    greedy (freq <$> pq) c ∧
    weighted_path_length t = sum_list_with weighted_path_length pq + c.
Proof.
  revert pq. induction fuel as [|fuel IH]; intros pq Hne Hlen Hstrict Hheap;
    simpl; destruct (decide (length pq > 1)) as [Hgt|Hngt]; try lia.
  1,3: destruct pq as [|t [|??]]; simpl in *; try done; try lia;
    exists t, 0; split_and!;
      [done | by inversion Hstrict | by rewrite app_nil_r | constructor | lia].
  destruct (heapq_facts.heappop_spec HuffmanNode_lt freq HuffmanNode_lt_freq pq Hne)
    as (l & pq1 & -> & Hperm1 & Hpop1).
  destruct (Hpop1 Hheap) as [Hheap1 Hmin1]. rewrite bind_Ok. cbn beta iota.
  assert (pq1 ≠ []) as Hne1.
  { intros ->. apply Permutation_length in Hperm1. simpl in Hperm1. lia. }
  destruct (heapq_facts.heappop_spec HuffmanNode_lt freq HuffmanNode_lt_freq pq1 Hne1)
    as (r & pq2 & -> & Hperm2 & Hpop2).
  destruct (Hpop2 Hheap1) as [Hheap2 Hmin2]. rewrite bind_Ok. cbn beta iota zeta.
  set (merged := mkHuffmanNode None (freq l + freq r) (Some l) (Some r)).
  change (set_right (set_left (HuffmanNode_init None (freq l + freq r)) (Some l))
            (Some r)) with merged.
  destruct (heapq_facts.heappush_spec HuffmanNode_lt freq HuffmanNode_lt_freq pq2 merged)
    as (pq3 & -> & Hperm3 & Hpush).
  rewrite bind_Ok.
  assert (pq ≡ₚ l :: r :: pq2) as Hperm by (by rewrite Hperm1, Hperm2).
  rewrite Hperm in Hstrict. apply Forall_cons in Hstrict as [Hl Hstrict].
  apply Forall_cons in Hstrict as [Hr Hstrict].
  assert (strict merged) as Hmerged by by constructor.
  destruct (IH pq3) as (t & c & -> & Ht & Hleaves & Hgreedy & Hwpl).
  { intros ->. by apply Permutation_nil_l in Hperm3. }
  { apply Permutation_length in Hperm3, Hperm. simpl in *. lia. }
  { rewrite Hperm3. by constructor. }
  { by apply Hpush. }
  exists t, (freq l + freq r + c). split_and!; [done..| | |].
  - rewrite Hleaves, Hperm3, Hperm. simpl. unfold merged.
    by rewrite leaves_internal, <- (assoc_L (++)).
  - apply greedy_merge with (ws' := freq <$> pq2).
    + by rewrite Hperm.
    + intros w (y & -> & Hy)%list_elem_of_fmap. by apply Hmin1.
    + intros w (y & -> & Hy)%list_elem_of_fmap. apply Hmin2.
      rewrite Hperm2. by right.
    + eapply greedy_perm; [|done]. by rewrite Hperm3.
  - rewrite Hwpl, Hperm3, Hperm. simpl. unfold merged.
    rewrite weighted_path_length_internal, !weight_strict by done. lia.
Qed.

Lemma build_huffman_tree_spec (frequency : dict Symbol nat) :
  frequency ≠ [] →
  ∃ t c,
    build_huffman_tree frequency = Ok t ∧ strict t ∧
    leaves t ≡ₚ table_leaves frequency ∧
    greedy frequency.*2 c ∧ weighted_path_length t = c.
Proof.
  intros Hne. unfold build_huffman_tree, items.
  set (pq0 := (λ '(char, freq), HuffmanNode_init (Some char) freq) <$> frequency).
  destruct (heapq_facts.heapify_spec HuffmanNode_lt freq HuffmanNode_lt_freq pq0)
    as (pq & -> & Hperm & Hheap).
  rewrite bind_Ok.
  destruct (merge_loop_spec (length pq) pq)
    as (t & c & -> & Ht & Hleaves & Hgreedy & Hwpl); [|lia| |done|].
  { intros ->. apply Permutation_nil_l in Hperm. unfold pq0 in Hperm.
    by destruct frequency. }
  { rewrite Hperm. unfold pq0. apply Forall_fmap, Forall_true.
    intros [c f]. constructor. }
  rewrite bind_Ok. exists t, c. split_and!; [done..| | |].
  - rewrite Hleaves, Hperm. unfold pq0, table_leaves, items.
    clear. induction frequency as [|[c f] fr IH]; [done|]. simpl. by f_equiv.
  - eapply greedy_perm; [|done]. rewrite Hperm. unfold pq0.
    rewrite <- list_fmap_compose. erewrite list_fmap_ext; [done|].
    by intros _ [??] _.
  - rewrite Hwpl, Hperm. unfold pq0. clear.
    induction frequency as [|[s f] fr IH]; [done|]. by csimpl.
Qed.

Lemma build_huffman_tree_empty :
  build_huffman_tree (Symbol := Symbol) [] = Raise IndexError.
Proof. reflexivity. Qed.
End BuilderFacts.

(* ===================================================================== *)
(** * Dicts *)
(* ===================================================================== *)

Section DictFacts.
Context {K V : Type} `{EqDecision K}.
Implicit Types (d : dict K V) (k : K) (v : V).

Lemma dict_lookup_setitem_eq d k v : dict_lookup (dict_setitem d k v) k = Some v.
Proof.
  induction d as [|[k' v'] d IH]; simpl; [by rewrite decide_True|].
  case_decide; simpl; [subst; by rewrite decide_True | by rewrite decide_False].
Qed.

Lemma dict_lookup_setitem_ne d k k' v :
  k ≠ k' → dict_lookup (dict_setitem d k v) k' = dict_lookup d k'.
Proof.
  intros Hne. induction d as [|[k0 v0] d IH]; simpl; [by rewrite decide_False|].
  repeat (case_decide; simplify_eq/=); try done;
    rewrite ?decide_True, ?decide_False by done; done.
Qed.

Lemma elem_of_keys_setitem d k k' v :
  k' ∈ keys (dict_setitem d k v) ↔ k' = k ∨ k' ∈ keys d.
Proof.
  unfold keys. induction d as [|[k0 v0] d IH]; simpl.
  - rewrite list_elem_of_singleton, elem_of_nil. naive_solver.
  - case_decide; subst; csimpl; rewrite !elem_of_cons; [|rewrite IH]; naive_solver.
Qed.

Lemma NoDup_keys_setitem d k v : NoDup (keys d) → NoDup (keys (dict_setitem d k v)).
Proof.
  unfold keys. induction d as [|[k0 v0] d IH]; simpl; intros Hnd.
  - apply NoDup_singleton.
  - apply NoDup_cons in Hnd as [Hk0 Hnd]. case_decide; subst; csimpl.
    + by apply NoDup_cons.
    + apply NoDup_cons. split; [|by apply IH].
      intros [?|?]%elem_of_keys_setitem; done.
Qed.

Lemma dict_lookup_NoDup d k v :
  NoDup (keys d) → (k, v) ∈ d → dict_lookup d k = Some v.
Proof.
  unfold keys. induction d as [|[k' v'] d IH]; csimpl; intros Hnd Hin.
  - by apply elem_of_nil in Hin.
  - apply NoDup_cons in Hnd as [Hk' Hnd].
    apply elem_of_cons in Hin as [[= <- <-]|Hin]; [by rewrite decide_True|].
    rewrite decide_False; [by apply IH|].
    intros <-. apply Hk'. apply list_elem_of_fmap. by exists (k, v).
Qed.
End DictFacts.

Section DictSum.
Context {K : Type} `{EqDecision K}.

Lemma sum_values_setitem (d : dict K nat) k v :
  sum_list (dict_setitem d k v).*2 + default 0 (dict_lookup d k) =
  sum_list d.*2 + v.
Proof.
  induction d as [|[k' v'] d IH]; simpl; [lia|].
  case_decide; csimpl; lia.
Qed.
End DictSum.

(* ===================================================================== *)
(** * build_frequency_dict *)
(* ===================================================================== *)

Section FrequencyFacts.
Context {Symbol : Type} `{EqDecision Symbol}.
Implicit Types (data : list Symbol) (frequency : dict Symbol nat).

(** The loop of [build_frequency_dict], started from any table. *)
Lemma count_loop_spec data frequency :
  let result :=
    foldl (λ frequency char,
             dict_setitem frequency char
               (default 0 (dict_lookup frequency char) + 1))
          frequency data in
  sum_list result.*2 = sum_list frequency.*2 + length data ∧
  (∀ c, c ∈ keys result ↔ c ∈ keys frequency ∨ c ∈ data) ∧
  (NoDup (keys frequency) → NoDup (keys result)).
Proof.
  revert frequency. induction data as [|char data IH]; intros frequency; simpl.
  - split_and!; [lia | intros c; rewrite elem_of_nil; naive_solver | done].
  - destruct (IH (dict_setitem frequency char
                    (default 0 (dict_lookup frequency char) + 1)))
      as (Hsum & Hkeys & Hnd).
    split_and!.
    + rewrite Hsum.
      pose proof (sum_values_setitem frequency char
                    (default 0 (dict_lookup frequency char) + 1)). lia.
    + intros c. rewrite Hkeys, elem_of_keys_setitem, elem_of_cons. naive_solver.
    + intros ?. by apply Hnd, NoDup_keys_setitem.
Qed.

Lemma build_frequency_dict_keys data c :
  c ∈ keys (build_frequency_dict data) ↔ c ∈ data.
Proof.
  destruct (count_loop_spec data []) as (_ & Hkeys & _).
  unfold build_frequency_dict. rewrite (Hkeys c). unfold keys. simpl.
  rewrite elem_of_nil. naive_solver.
Qed.

(** C7.  The frequency analyser returns a table whose counts sum to the
    length of the input and whose keys, each present once, are exactly
    the symbols occurring in the input; the empty input gives the empty
    table. *)
Theorem build_frequency_dict_conserves data :
  sum_list (build_frequency_dict data).*2 = length data ∧
  (∀ c, c ∈ keys (build_frequency_dict data) ↔ c ∈ data) ∧
  NoDup (keys (build_frequency_dict data)) ∧
  build_frequency_dict (@nil Symbol) = [].
Proof.
  destruct (count_loop_spec data []) as (Hsum & _ & Hnd).
  split_and!; [done | | by apply Hnd, NoDup_nil | done].
  apply build_frequency_dict_keys.
Qed.
End FrequencyFacts.

(* ===================================================================== *)
(** * The shape and the domain of the builder *)
(* ===================================================================== *)

Section BuilderShape.
Context {Symbol : Type} `{EqDecision Symbol}.
Implicit Types (n t : HuffmanNode Symbol) (frequency : dict Symbol nat).

Lemma strict_nodes t : strict t → ∀ n, n ∈ nodes t → node_shape n.
Proof.
  induction 1 as [c f|l r _ IHl _ IHr]; intros n; simpl.
  - intros ->%list_elem_of_singleton. left. simpl. eauto.
  - rewrite elem_of_cons, elem_of_app. intros [->|[?|?]]; [|by auto..].
    right. simpl. eauto 6.
Qed.

Lemma build_huffman_tree_Ok_nonempty frequency t :
  build_huffman_tree frequency = Ok t → frequency ≠ [].
Proof. by intros Hbuild ->. Qed.

Lemma build_huffman_tree_Ok_strict frequency t :
  build_huffman_tree frequency = Ok t → strict t.
Proof.
  intros Hbuild.
  destruct (build_huffman_tree_spec frequency) as (t' & c & Heq & Hstrict & _).
  { by eapply build_huffman_tree_Ok_nonempty. }
  rewrite Hbuild in Heq. by injection Heq as <-.
Qed.

(** C8.  Every tree the builder returns is strict: each of its nodes is
    either a leaf, with a symbol and no children, or an internal node,
    with no symbol, two children and the sum of their frequencies. *)
Theorem build_huffman_tree_strict frequency t :
  build_huffman_tree frequency = Ok t →
  strict t ∧ ∀ n, n ∈ nodes t → node_shape n.
Proof.
  intros Hstrict%build_huffman_tree_Ok_strict.
  split; [done | by apply strict_nodes].
Qed.

(** C10.  The builder raises [IndexError] exactly on the empty table and
    returns a node exactly on the non-empty ones. *)
Theorem build_huffman_tree_domain frequency :
  (build_huffman_tree frequency = Raise IndexError ↔ frequency = []) ∧
  ((∃ t, build_huffman_tree frequency = Ok t) ↔ frequency ≠ []).
Proof.
  destruct (decide (frequency = [])) as [->|Hne].
  - split; [done|]. split; [by intros [t ?] | done].
  - destruct (build_huffman_tree_spec frequency Hne) as (t & c & Heq & _).
    rewrite Heq. split; [done|]. split; eauto.
Qed.
End BuilderShape.

Lemma build_huffman_tree_strict_witness :
  build_huffman_tree example_frequency = Ok example_tree ∧
  strict example_tree ∧ ∀ n, n ∈ nodes example_tree → node_shape n.
Proof.
  split; [reflexivity|].
  apply (build_huffman_tree_strict example_frequency). reflexivity.
Defined.

(* ===================================================================== *)
(** * Bit strings and slices *)
(* ===================================================================== *)

Section BitFacts.
Implicit Types (s : bitstring) (b : bool).

Lemma binary_value_snoc s b :
  binary_value (s ++ [b]) = 2 * binary_value s + (if b then 1 else 0).
Proof. unfold binary_value. by rewrite foldl_app. Qed.

Lemma binary_value_zeros k s :
  binary_value (replicate k false ++ s) = binary_value s.
Proof.
  unfold binary_value. rewrite foldl_app.
  replace (foldl _ 0 (replicate k false)) with 0; [done|].
  induction k as [|k IH]; [done | exact IH].
Qed.

Lemma binary_value_digits fuel n :
  n ≤ fuel → binary_value (binary_digits fuel n) = n.
Proof.
  revert n. induction fuel as [|fuel IH]; intros n Hn; simpl.
  - unfold binary_value. simpl. lia.
  - case_decide as Hz; [by subst|].
    rewrite binary_value_snoc, IH by lia. case_bool_decide; lia.
Qed.

Lemma binary_digits_length fuel n k :
  n < 2 ^ k → length (binary_digits fuel n) ≤ k.
Proof.
  revert n k. induction fuel as [|fuel IH]; intros n k Hn; simpl; [lia|].
  case_decide as Hz; [simpl; lia|].
  destruct k as [|k]; [simpl in Hn; lia|].
  rewrite length_app. simpl. rewrite Nat.pow_succ_r' in Hn.
  specialize (IH (n / 2) k). lia.
Qed.

Lemma format_08b_length n : n < 256 → length (format_08b n) = 8.
Proof.
  intros Hn. unfold format_08b. rewrite length_app, length_replicate.
  pose proof (binary_digits_length n n 8 Hn). lia.
Qed.

Lemma int_2_format_08b n : int_2 (format_08b n) = Ok n.
Proof.
  assert (binary_value (format_08b n) = n) as Hv.
  { unfold format_08b. by rewrite binary_value_zeros, binary_value_digits. }
  assert (8 ≤ length (format_08b n)) as Hlen.
  { unfold format_08b. rewrite length_app, length_replicate. lia. }
  unfold int_2. destruct (format_08b n); [simpl in Hlen; lia|]. by rewrite Hv.
Qed.
End BitFacts.

Section SliceFacts.
Context {A : Type}.
Implicit Types (s a b c : list A).

Lemma slice_index_nonneg n (i : Z) :
  (0 ≤ i)%Z → slice_index n i = Z.to_nat i `min` n.
Proof. intros. unfold slice_index. rewrite decide_False by lia. lia. Qed.

Lemma slice_index_neg n (i : Z) :
  (i < 0)%Z → slice_index n i = n - Z.to_nat (- i).
Proof. intros. unfold slice_index. rewrite decide_True by lia. lia. Qed.

(** [(a + b)[:len(a)]] is [a]. *)
Lemma slice_head a b : slice (a ++ b) 0 (Z.of_nat (length a)) = a.
Proof.
  unfold slice. rewrite !slice_index_nonneg, length_app by lia.
  replace (Z.to_nat 0 `min` _) with 0 by lia. rewrite drop_0.
  replace (_ `min` _ - 0) with (length a) by lia.
  by rewrite take_app_length.
Qed.

(** [(a + b + c)[len(a):-len(c)]] is [b], provided [c] is not empty. *)
Lemma slice_middle a b c :
  c ≠ [] →
  slice (a ++ b ++ c) (Z.of_nat (length a)) (- Z.of_nat (length c)) = b.
Proof.
  intros Hc. assert (0 < length c) by (destruct c; simpl; [done|lia]).
  unfold slice.
  rewrite (slice_index_nonneg _ (Z.of_nat (length a))) by lia.
  rewrite (slice_index_neg _ (- Z.of_nat (length c))) by lia.
  rewrite !length_app.
  replace (Z.to_nat _ `min` _) with (length a) by lia.
  replace (_ - _ - length a) with (length b) by lia.
  by rewrite drop_app_length, take_app_length.
Qed.

(** [s[i:-0]] is [s[i:0]], which is empty. *)
Lemma slice_to_0 s (start : Z) : (0 ≤ start)%Z → slice s start (- 0) = [].
Proof.
  intros Hstart. unfold slice. by rewrite !slice_index_nonneg by lia.
Qed.
End SliceFacts.

Section DictUpdateFacts.
Context {K V : Type} `{EqDecision K}.
Implicit Types (d : dict K V) (k : K) (v : V) (kvs : list (K * V)).

Lemma dict_update_app d kvs1 kvs2 :
  dict_update d (kvs1 ++ kvs2) = dict_update (dict_update d kvs1) kvs2.
Proof. unfold dict_update. by rewrite foldl_app. Qed.

Lemma dict_update_lookup d kvs k v :
  dict_lookup (dict_update d kvs) k = Some v →
  (k, v) ∈ kvs ∨ dict_lookup d k = Some v.
Proof.
  revert d. induction kvs as [|[k' v'] kvs IH]; intros d; simpl; [by right|].
  intros [Hin|Hd]%IH; [left; by right|].
  destruct (decide (k' = k)) as [->|Hne].
  - rewrite dict_lookup_setitem_eq in Hd. simplify_eq. left. by left.
  - rewrite dict_lookup_setitem_ne in Hd by done. by right.
Qed.

Lemma dict_update_is_Some d kvs k :
  is_Some (dict_lookup d k) ∨ k ∈ kvs.*1 →
  is_Some (dict_lookup (dict_update d kvs) k).
Proof.
  revert d. induction kvs as [|[k' v'] kvs IH]; intros d; csimpl.
  - intros [?|[]%elem_of_nil]. done.
  - intros Hk. apply IH. destruct (decide (k' = k)) as [->|Hne].
    + left. by rewrite dict_lookup_setitem_eq.
    + rewrite dict_lookup_setitem_ne by done.
      destruct Hk as [?|[?|?]%elem_of_cons]; [by left | done | by right].
Qed.

Lemma NoDup_keys_update d kvs :
  NoDup (keys d) → NoDup (keys (dict_update d kvs)).
Proof.
  revert d. induction kvs as [|[k' v'] kvs IH]; intros d Hnd; simpl; [done|].
  by apply IH, NoDup_keys_setitem.
Qed.
End DictUpdateFacts.

(* ===================================================================== *)
(** * build_codes *)
(* ===================================================================== *)

Section CodeFacts.
Context {Symbol : Type} `{EqDecision Symbol}.
Implicit Types (n t l r root : HuffmanNode Symbol) (s : Symbol).
Implicit Types (codes : dict Symbol bitstring) (p q cur : bitstring).

(** The helper stores the paths below [node], each prefixed with
    [current_code]. *)
Lemma _build_codes_helper_paths n cur codes :
  _build_codes_helper n cur codes =
  dict_update codes (prod_map id (app cur) <$> paths n).
Proof.
  revert cur codes.
  induction n as [c f ol or IHl IHr] using HuffmanNode_children_ind.
  intros cur codes. simpl. rewrite !fmap_app, !dict_update_app.
  assert (∀ b (o : option (HuffmanNode Symbol)) codes',
    (∀ l, o = Some l → ∀ cur codes,
       _build_codes_helper l cur codes =
       dict_update codes (prod_map id (app cur) <$> paths l)) →
    match o with
    | Some l => _build_codes_helper l (cur ++ [b]) codes'
    | None => codes'
    end =
    dict_update codes'
      (prod_map id (app cur) <$>
         match o with
         | Some l => prod_map id (cons b) <$> paths l
         | None => []
         end)) as Hchild.
  { intros b [l|] codes' IH; [|done]. rewrite (IH l) by done.
    rewrite <- list_fmap_compose. f_equal. apply list_fmap_ext.
    intros _ [s p] _. simpl. by rewrite <- (assoc_L (++)). }
  rewrite <- (Hchild true or) by done. rewrite <- (Hchild false ol) by done.
  destruct c as [s|]; simpl; [|done]. by rewrite app_nil_r.
Qed.

Lemma build_codes_paths t : build_codes t = dict_update [] (paths t).
Proof.
  unfold build_codes. rewrite _build_codes_helper_paths. f_equal.
  rewrite <- (list_fmap_id (paths t)) at 2. apply list_fmap_ext.
  by intros _ [s p] _.
Qed.

(** Every entry of the code table is a path of the tree. *)
Lemma build_codes_lookup t s p :
  dict_lookup (build_codes t) s = Some p → (s, p) ∈ paths t.
Proof.
  rewrite build_codes_paths. by intros [?|?]%dict_update_lookup.
Qed.

Lemma build_codes_NoDup t : NoDup (keys (build_codes t)).
Proof. rewrite build_codes_paths. apply NoDup_keys_update, NoDup_nil_2. Qed.

Lemma build_codes_entry t s p : (s, p) ∈ build_codes t → (s, p) ∈ paths t.
Proof.
  intros Hin. apply build_codes_lookup, dict_lookup_NoDup; [|done].
  apply build_codes_NoDup.
Qed.

(** Every symbol of the tree has an entry. *)
Lemma build_codes_is_Some t s :
  s ∈ (paths t).*1 → is_Some (dict_lookup (build_codes t) s).
Proof. rewrite build_codes_paths. intros. apply dict_update_is_Some. by right. Qed.

Lemma paths_internal l r :
  paths (mkHuffmanNode None (freq l + freq r) (Some l) (Some r)) =
  (prod_map id (cons false) <$> paths l) ++ (prod_map id (cons true) <$> paths r).
Proof. reflexivity. Qed.

Lemma elem_of_paths_internal l r s p :
  (s, p) ∈ paths (mkHuffmanNode None (freq l + freq r) (Some l) (Some r)) ↔
  (∃ p', p = false :: p' ∧ (s, p') ∈ paths l) ∨
  (∃ p', p = true :: p' ∧ (s, p') ∈ paths r).
Proof.
  rewrite paths_internal, elem_of_app, !list_elem_of_fmap. split.
  - intros [([s' p'] & [= -> ->] & ?)|([s' p'] & [= -> ->] & ?)]; eauto.
  - intros [(p' & -> & ?)|(p' & -> & ?)]; [left|right]; by exists (s, p').
Qed.

(** In a strict tree the symbols with a code are the symbols of the leaves. *)
Lemma strict_paths_leaves t :
  strict t → Some <$> (paths t).*1 = (leaves t).*1.
Proof.
  induction 1 as [c f|l r _ IHl _ IHr]; [done|].
  rewrite paths_internal, leaves_internal, !fmap_app, <- IHl, <- IHr.
  rewrite <- !list_fmap_compose. f_equal; apply list_fmap_ext; by intros _ [??] _.
Qed.

(** In a strict tree a path that is a prefix of another is that other path
    and leads to the same symbol. *)
Lemma strict_paths_prefix t s1 p1 s2 p2 :
  strict t → (s1, p1) ∈ paths t → (s2, p2) ∈ paths t →
  p1 `prefix_of` p2 → s1 = s2 ∧ p1 = p2.
Proof.
  intros Hstrict. revert p1 p2.
  induction Hstrict as [c f|l r _ IHl _ IHr]; intros p1 p2.
  - simpl. by intros [= -> ->]%list_elem_of_singleton [= -> ->]%list_elem_of_singleton.
  - rewrite !elem_of_paths_internal.
    intros [(q1 & -> & H1)|(q1 & -> & H1)] [(q2 & -> & H2)|(q2 & -> & H2)] Hpre;
      try (by destruct Hpre as [k [=]]).
    + destruct (IHl q1 q2) as [-> ->]; [done..| |done].
      by apply (prefix_cons_inv_2 false false).
    + destruct (IHr q1 q2) as [-> ->]; [done..| |done].
      by apply (prefix_cons_inv_2 true true).
Qed.

(** Below an internal node every path has at least one bit. *)
Lemma strict_paths_nonempty t s p :
  strict t → is_leaf t = false → (s, p) ∈ paths t → p ≠ [].
Proof.
  destruct 1 as [c f|l r _ _]; [done|]. intros _.
  rewrite elem_of_paths_internal. by intros [(? & -> & _)|(? & -> & _)].
Qed.

End CodeFacts.

(* ===================================================================== *)
(** * encode_data and decode_data *)
(* ===================================================================== *)

Section CodecFacts.
Context {Symbol : Type} `{EqDecision Symbol}.
Implicit Types (n t l r root : HuffmanNode Symbol) (s : Symbol).
Implicit Types (codes : dict Symbol bitstring) (p bits rest : bitstring).
Implicit Types (data acc : list Symbol).

(** Walking a path from an internal node emits its symbol and returns to
    the root. *)
Lemma decode_loop_path root n s p rest acc :
  strict n → is_leaf n = false → (s, p) ∈ paths n →
  decode_loop root (p ++ rest) n acc = decode_loop root rest root (acc ++ [s]).
Proof.
  intros Hstrict. revert p.
  induction Hstrict as [c f|l r Hl IHl Hr IHr]; intros p; [done|]. intros _.
  rewrite elem_of_paths_internal. intros [(p' & -> & Hp)|(p' & -> & Hp)]; simpl.
  - destruct Hl as [c f|l1 l2 _ _].
    + by apply list_elem_of_singleton in Hp as [= -> ->].
    + by apply IHl.
  - destruct Hr as [c f|r1 r2 _ _].
    + by apply list_elem_of_singleton in Hp as [= -> ->].
    + by apply IHr.
Qed.

Lemma join_codes_Ok data codes :
  (∀ s, s ∈ data → is_Some (dict_lookup codes s)) →
  ∃ bits, join_codes data codes = Ok bits.
Proof.
  induction data as [|c data IH]; intros Hcodes; simpl; [by eexists|].
  destruct (Hcodes c) as [p Hp]; [by left|].
  destruct IH as [bits ->]; [intros; apply Hcodes; by right|].
  unfold dict_getitem. rewrite Hp. simpl. by eexists.
Qed.

(** The walk over the joined codes of [data] emits [data]. *)
Lemma decode_loop_join root data codes bits rest acc :
  strict root → is_leaf root = false →
  (∀ s p, dict_lookup codes s = Some p → (s, p) ∈ paths root) →
  join_codes data codes = Ok bits →
  decode_loop root (bits ++ rest) root acc =
  decode_loop root rest root (acc ++ data).
Proof.
  intros Hstrict Hroot Hcodes. revert bits acc.
  induction data as [|c data IH]; intros bits acc; simpl.
  - intros [= <-]. by rewrite app_nil_r.
  - unfold dict_getitem. destruct (dict_lookup codes c) as [p|] eqn:Hp; [|done].
    simpl. destruct (join_codes data codes) as [bits'| |]; [|done..].
    intros [= <-]. rewrite <- (assoc_L (++)).
    rewrite (decode_loop_path root root c) by auto.
    rewrite (IH bits') by done. by rewrite <- (assoc_L (++)).
Qed.

(** What [encode_data] returns: header, code bits, padding. *)
Lemma encode_data_Ok data codes bits :
  join_codes data codes = Ok bits →
  encode_data data codes =
  Ok (format_08b (8 - length bits mod 8) ++ bits
      ++ replicate (8 - length bits mod 8) false).
Proof. unfold encode_data. by intros ->. Qed.

(** [decode_data] on a well-framed stream walks exactly the code bits. *)
Lemma decode_data_framed root bits padding :
  0 < padding < 256 →
  decode_data (format_08b padding ++ bits ++ replicate padding false) root =
  '(decoded_data, _) ← decode_loop root bits root []; Ok decoded_data.
Proof.
  intros Hpad. unfold decode_data.
  pose proof (format_08b_length padding) as Hlen.
  replace 8%Z with (Z.of_nat (length (format_08b padding))) by lia.
  rewrite slice_head, int_2_format_08b, bind_Ok.
  pose proof (slice_middle (format_08b padding) bits (replicate padding false))
    as Hmiddle.
  rewrite length_replicate in Hmiddle.
  rewrite Hmiddle; [done|]. destruct padding; [lia|done].
Qed.

(** C1.  For an input with at least two distinct symbols, the stream
    produced with the code table built from the input's frequency table
    decodes, with the tree rebuilt from that table, to the input. *)
Theorem round_trip (x : list Symbol) :
  x ≠ [] → (∃ a b, a ∈ x ∧ b ∈ x ∧ a ≠ b) →
  ∃ huffman_tree encoded_data,
    build_huffman_tree (build_frequency_dict x) = Ok huffman_tree ∧
    encode_data x (build_codes huffman_tree) = Ok encoded_data ∧
    decode_data encoded_data huffman_tree = Ok x ∧
    compress x = Ok encoded_data ∧
    decompress (build_frequency_dict x) encoded_data = Ok x.
Proof.
  intros _ (a & b & Ha & Hb & Hab).
  pose proof (build_frequency_dict_keys x) as Hkeys.
  set (frequency := build_frequency_dict x) in *.
  destruct (build_huffman_tree_spec frequency) as (t & c & Hbuild & Hstrict & Hleaves & _).
  { intros Hnil. apply Hkeys in Ha. rewrite Hnil in Ha. by apply elem_of_nil in Ha. }
  assert (is_leaf t = false) as Hroot.
  { destruct (is_leaf t) eqn:Hleaf; [|done]. exfalso.
    destruct Hstrict as [c0 f0|]; [|done].
    apply Permutation_singleton_l in Hleaves. unfold table_leaves, items in Hleaves.
    destruct frequency as [|[k v] [|??]]; simplify_eq/=.
    apply Hkeys, list_elem_of_singleton in Ha, Hb. congruence. }
  assert (∀ s, s ∈ x → is_Some (dict_lookup (build_codes t) s)) as Hcover.
  { intros s Hs%Hkeys. apply build_codes_is_Some.
    assert (Some s ∈ (leaves t).*1) as Hin.
    { rewrite Hleaves. unfold table_leaves, items, keys in *.
      rewrite <- list_fmap_compose.
      apply list_elem_of_fmap in Hs as ([k v] & -> & Hkv).
      apply list_elem_of_fmap. by exists (k, v). }
    rewrite <- strict_paths_leaves in Hin by done.
    by apply list_elem_of_fmap in Hin as (s' & [= <-] & ?). }
  destruct (join_codes_Ok x (build_codes t) Hcover) as [bits Hjoin].
  pose proof (encode_data_Ok x (build_codes t) bits Hjoin) as Hencode.
  set (encoded_data := format_08b (8 - length bits mod 8) ++ bits
                       ++ replicate (8 - length bits mod 8) false) in *.
  assert (decode_data encoded_data t = Ok x) as Hdecode.
  { unfold encoded_data.
    rewrite decode_data_framed
      by (pose proof (Nat.mod_upper_bound (length bits) 8); lia).
    rewrite <- (app_nil_r bits).
    rewrite (decode_loop_join t x (build_codes t) bits [] []); [done..| |done].
    apply build_codes_lookup. }
  exists t, encoded_data. unfold compress, decompress. fold frequency.
  by rewrite Hbuild, !bind_Ok.
Qed.
End CodecFacts.

Lemma round_trip_witness :
  example_data ≠ [] ∧
  (∃ a b, a ∈ example_data ∧ b ∈ example_data ∧ a ≠ b) ∧
  ∃ huffman_tree encoded_data,
    build_huffman_tree (build_frequency_dict example_data) = Ok huffman_tree ∧
    encode_data example_data (build_codes huffman_tree) = Ok encoded_data ∧
    decode_data encoded_data huffman_tree = Ok example_data ∧
    compress example_data = Ok encoded_data ∧
    decompress (build_frequency_dict example_data) encoded_data = Ok example_data.
Proof.
  assert (example_data ≠ []) as Hne by done.
  assert (∃ a b, a ∈ example_data ∧ b ∈ example_data ∧ a ≠ b) as Hdist.
  { exists "A"%char, "B"%char. split_and!; [|  |done].
    - apply list_elem_of_In. simpl. tauto.
    - apply list_elem_of_In. simpl. tauto. }
  split_and!; [done..|]. exact (round_trip example_data Hne Hdist).
Defined.

(* ===================================================================== *)
(** * decode_data on arbitrary streams *)
(* ===================================================================== *)

Section DecodeFacts.
Context {Symbol : Type} `{EqDecision Symbol}.
Implicit Types (n t l r root : HuffmanNode Symbol) (s : Symbol).
Implicit Types (p bits rest tail : bitstring) (acc decoded : list Symbol).

Lemma strict_child_cases n (b : bool) :
  strict n → is_leaf n = false →
  ∃ m, (if b then right n else left n) = Some m ∧ strict m ∧
       ((∃ c, char m = Some c ∧ (c, [b]) ∈ paths n) ∨
        (char m = None ∧ is_leaf m = false ∧
         ∀ s p, (s, p) ∈ paths m → (s, b :: p) ∈ paths n)).
Proof.
  destruct 1 as [c f|l r Hl Hr]; [done|]. intros _.
  destruct b; simpl.
  - exists r. split_and!; [done..|]. destruct Hr as [c f|r1 r2 ??].
    + left. exists c. split; [done|]. apply elem_of_paths_internal.
      right. exists []. split; [done|]. by left.
    + right. split_and!; [done..|]. intros s p Hp.
      apply (elem_of_paths_internal l). right. eauto.
  - exists l. split_and!; [done..|]. destruct Hl as [c f|l1 l2 ??].
    + left. exists c. split; [done|]. apply elem_of_paths_internal.
      left. exists []. split; [done|]. by left.
    + right. split_and!; [done..|]. intros s p Hp.
      apply (elem_of_paths_internal _ r). left. eauto.
Qed.

(** From an internal node the bits either start with a complete path, or
    they end inside the tree and the walk stops there without emitting. *)
Lemma decode_loop_partial root n bits acc :
  strict n → is_leaf n = false →
  (∃ s p rest, bits = p ++ rest ∧ (s, p) ∈ paths n) ∨
  (∃ m, descend n bits = Some m ∧ is_leaf m = false ∧
        decode_loop root bits n acc = Ok (acc, m)).
Proof.
  revert n. induction bits as [|b bits IH]; intros n Hn Hleaf.
  - right. by exists n.
  - destruct (strict_child_cases n b Hn Hleaf)
      as (m & Hm & Hstrict & [(c & Hc & Hpath)|(Hc & Hmleaf & Hpaths)]).
    + left. by exists c, [b], bits.
    + destruct (IH m Hstrict Hmleaf)
        as [(s & p & rest & -> & Hp)|(m' & Hdesc & Hleaf' & Hloop)].
      * left. exists s, (b :: p), rest. split; [done|]. by apply Hpaths.
      * right. exists m'. simpl. rewrite Hm. simpl. by rewrite Hc.
Qed.

(** The walk from the root never raises: it emits the symbols of the
    complete paths and stops inside the tree on what is left. *)
Lemma decode_loop_total root bits acc :
  strict root → is_leaf root = false →
  ∃ decoded ps tail node,
    decode_loop root bits root acc = Ok (acc ++ decoded, node) ∧
    bits = mjoin ps ++ tail ∧
    Forall2 (λ s p, (s, p) ∈ paths root) decoded ps ∧
    descend root tail = Some node ∧ is_leaf node = false.
Proof.
  intros Hstrict Hleaf. revert acc.
  remember (length bits) as k eqn:Hk. revert bits Hk.
  induction (lt_wf k) as [k _ IH]. intros bits -> acc.
  destruct (decode_loop_partial root root bits acc Hstrict Hleaf)
    as [(s & p & rest & -> & Hp)|(m & Hdesc & Hmleaf & Hloop)].
  - assert (p ≠ @nil bool) as Hne by by eapply strict_paths_nonempty.
    destruct (IH (length rest)) with (bits := rest) (acc := acc ++ [s])
      as (decoded & ps & tail & node & Hloop & -> & Hall & Hdesc & Hnode);
      [|done|].
    { rewrite length_app. destruct p; [done|simpl; lia]. }
    exists (s :: decoded), (p :: ps), tail, node.
    split_and!; [|simpl; by rewrite <- (assoc_L (++))| |done..].
    + rewrite (decode_loop_path root root s) by done.
      by rewrite Hloop, <- (assoc_L (++)).
    + by constructor.
  - exists [], [], bits, m. by rewrite app_nil_r.
Qed.

Lemma build_huffman_tree_internal (frequency : dict Symbol nat) root :
  build_huffman_tree frequency = Ok root → 2 ≤ length frequency →
  strict root ∧ is_leaf root = false.
Proof.
  intros Hbuild Hlen.
  destruct (build_huffman_tree_spec frequency) as (t & c & Heq & Hstrict & Hperm & _).
  { by eapply build_huffman_tree_Ok_nonempty. }
  rewrite Hbuild in Heq. injection Heq as <-. split; [done|].
  destruct Hstrict as [c0 f0|]; [|done].
  apply Permutation_length in Hperm. unfold table_leaves, items in Hperm.
  rewrite length_fmap in Hperm. simpl in Hperm. lia.
Qed.

(** C5, as the code has it.  Against a tree built from a table with at
    least two entries, a stream with a readable header is decoded without
    any error: the result holds the symbols of the complete codes of the
    payload, and a tail that ends inside the tree is dropped silently. *)
Theorem decode_data_drops_tail (frequency : dict Symbol nat) root encoded_data padding :
  build_huffman_tree frequency = Ok root → 2 ≤ length frequency →
  int_2 (slice encoded_data 0 8) = Ok padding →
  ∃ decoded ps tail node,
    decode_data encoded_data root = Ok decoded ∧
    slice encoded_data 8 (- Z.of_nat padding) = mjoin ps ++ tail ∧
    Forall2 (λ s p, (s, p) ∈ paths root) decoded ps ∧
    descend root tail = Some node ∧ is_leaf node = false.
Proof.
  intros Hbuild Hlen Hpad.
  destruct (build_huffman_tree_internal frequency root Hbuild Hlen) as [Hstrict Hleaf].
  destruct (decode_loop_total root (slice encoded_data 8 (- Z.of_nat padding)) []
              Hstrict Hleaf)
    as (decoded & ps & tail & node & Hloop & Hbits & Hall & Hdesc & Hnode).
  exists decoded, ps, tail, node. split_and!; [|done..].
  unfold decode_data. by rewrite Hpad, bind_Ok, Hloop.
Qed.

(** C9.  When the header reads 0 the payload slice [8:-0] is empty and
    [decode_data] returns the empty sequence, whatever follows the header. *)
Theorem decode_data_padding_0 encoded_data root :
  int_2 (slice encoded_data 0 8) = Ok 0 →
  decode_data encoded_data root = Ok [].
Proof.
  intros Hpad. unfold decode_data. rewrite Hpad, bind_Ok.
  change (Z.of_nat 0) with 0%Z. by rewrite (slice_to_0 encoded_data 8).
Qed.

(** C6, as the code has it.  The header written by [encode_data] holds
    [8 - totalBits mod 8]: a value from 1 to 8, and 8 when the code bits
    are already byte-aligned; the stream is the header, the code bits and
    that many "0" bits. *)
Theorem encode_data_header (data : list Symbol) codes bits :
  join_codes data codes = Ok bits →
  let padding := 8 - length bits mod 8 in
  ∃ encoded_data,
    encode_data data codes = Ok encoded_data ∧
    encoded_data = format_08b padding ++ bits ++ replicate padding false ∧
    int_2 (slice encoded_data 0 8) = Ok padding ∧
    1 ≤ padding ≤ 8 ∧
    (length bits mod 8 = 0 → padding = 8) ∧
    length encoded_data mod 8 = 0.
Proof.
  intros Hjoin padding.
  pose proof (Nat.mod_upper_bound (length bits) 8) as Hmod.
  pose proof (format_08b_length padding) as Hlen.
  eexists. split; [by apply encode_data_Ok|]. fold padding.
  split_and!; [done| |lia..|].
  - replace 8%Z with (Z.of_nat (length (format_08b padding))) by lia.
    by rewrite slice_head, int_2_format_08b.
  - rewrite !length_app, length_replicate, Hlen by lia.
    pose proof (Nat.div_mod_eq (length bits) 8) as Hdiv.
    replace (8 + (length bits + padding))
      with ((length bits / 8 + 2) * 8) by lia.
    apply Nat.Div0.mod_mul.
Qed.
End DecodeFacts.

(* ===================================================================== *)
(** * The code table: prefix-freedom, and the single-symbol table *)
(* ===================================================================== *)

Section CodeTableFacts.
Context {Symbol : Type} `{EqDecision Symbol}.
Implicit Types (t : HuffmanNode Symbol) (frequency : dict Symbol nat).
Implicit Types (s c : Symbol) (p : bitstring).

(** Whatever the table, no code of the generated code table is a proper
    prefix of another; two entries with a code that is a prefix of the
    other are the same entry. *)
Lemma build_codes_prefix_free frequency t s1 p1 s2 p2 :
  build_huffman_tree frequency = Ok t →
  (s1, p1) ∈ build_codes t → (s2, p2) ∈ build_codes t →
  (p1 `prefix_of` p2 → s1 = s2 ∧ p1 = p2) ∧ ¬ proper_prefix p1 p2.
Proof.
  intros Hbuild H1%build_codes_entry H2%build_codes_entry.
  pose proof (build_huffman_tree_Ok_strict frequency t Hbuild) as Hstrict.
  assert (p1 `prefix_of` p2 → s1 = s2 ∧ p1 = p2) as Hpre
    by by apply (strict_paths_prefix t).
  split; [done|]. intros [[_ ?]%Hpre ?]. done.
Qed.

(** With at least two entries in the table every code has at least one bit. *)
Lemma build_codes_nonempty frequency t s p :
  build_huffman_tree frequency = Ok t → 2 ≤ length frequency →
  (s, p) ∈ build_codes t → p ≠ [].
Proof.
  intros Hbuild Hlen Hin%build_codes_entry.
  destruct (build_huffman_tree_internal frequency t Hbuild Hlen) as [Hstrict Hleaf].
  by eapply strict_paths_nonempty.
Qed.

Lemma build_frequency_dict_replicate c k :
  build_frequency_dict (replicate (S k) c) = [(c, S k)].
Proof.
  unfold build_frequency_dict. simpl.
  assert (∀ m,
    foldl (λ frequency char,
             dict_setitem frequency char
               (default 0 (dict_lookup frequency char) + 1))
          [(c, m)] (replicate k c) = [(c, m + k)]) as Hloop.
  { induction k as [|k IH]; intros m; simpl; [by rewrite Nat.add_0_r|].
    rewrite !decide_True by done. simpl. rewrite IH. do 2 f_equal. lia. }
  apply Hloop.
Qed.

Lemma join_codes_empty_code c k :
  join_codes (replicate k c) [(c, [])] = Ok [].
Proof.
  induction k as [|k IH]; simpl; [done|]. unfold dict_getitem. simpl.
  rewrite decide_True by done. simpl. by rewrite IH.
Qed.

(** With a single distinct symbol the tree is one leaf, the code of the
    symbol is empty, the stream holds the header and one byte of padding,
    and decoding it returns nothing. *)
Lemma single_symbol_lossy c k :
  let data := replicate (S k) c in
  let tree := mkHuffmanNode (Some c) (S k) None None in
  build_huffman_tree (build_frequency_dict data) = Ok tree ∧
  build_codes tree = [(c, [])] ∧
  compress data = Ok (format_08b 8 ++ replicate 8 false) ∧
  decompress (build_frequency_dict data) (format_08b 8 ++ replicate 8 false)
    = Ok [].
Proof.
  intros data tree. unfold compress, decompress, data.
  rewrite build_frequency_dict_replicate.
  assert (build_huffman_tree [(c, S k)] = Ok tree) as -> by reflexivity.
  split_and!; [done..| |].
  - rewrite bind_Ok. change (build_codes tree) with [(c, @nil bool)].
    by rewrite (encode_data_Ok _ _ [] (join_codes_empty_code c (S k))).
  - rewrite bind_Ok.
    change (format_08b 8 ++ replicate 8 false)
      with (format_08b 8 ++ [] ++ replicate 8 false).
    by rewrite (decode_data_framed tree [] 8) by lia.
Qed.
End CodeTableFacts.

(* ===================================================================== *)
(** * Concrete runs *)
(* ===================================================================== *)

Example heapify_example :
  heapq.heapify Nat.ltb [5; 3; 2; 8; 1] = Ok [1; 3; 2; 8; 5].
Proof. reflexivity. Qed.

Example heappop_example :
  heapq.heappop Nat.ltb [1; 3; 2; 8; 5] = Ok (1, [2; 3; 5; 8]).
Proof. reflexivity. Qed.

Example heappush_example :
  heapq.heappush Nat.ltb [2; 3; 5; 8] 1 = Ok [1; 2; 5; 8; 3].
Proof. reflexivity. Qed.

Example build_frequency_dict_example :
  build_frequency_dict example_data = example_frequency.
Proof. reflexivity. Qed.

Example build_codes_example :
  build_codes example_tree =
  [("A"%char, [false]); ("C"%char, [true; false]); ("B"%char, [true; true])].
Proof. reflexivity. Qed.

Example weighted_path_length_example :
  weighted_path_length example_tree = 15.
Proof. reflexivity. Qed.

Example compress_example :
  compress example_data =
  Ok [false; false; false; false; false; false; false; true;
      false; false; false; false; false; true; true; true;
      true; true; true; true; false; true; false; false].
Proof. reflexivity. Qed.

Lemma decode_data_drops_tail_witness :
  build_huffman_tree (build_frequency_dict cut_data) = Ok cut_tree ∧
  2 ≤ length (build_frequency_dict cut_data) ∧
  int_2 (slice cut_stream 0 8) = Ok 6 ∧
  ∃ decoded ps tail node,
    decode_data cut_stream cut_tree = Ok decoded ∧
    slice cut_stream 8 (- Z.of_nat 6) = mjoin ps ++ tail ∧
    Forall2 (λ s p, (s, p) ∈ paths cut_tree) decoded ps ∧
    descend cut_tree tail = Some node ∧ is_leaf node = false.
Proof.
  assert (build_huffman_tree (build_frequency_dict cut_data) = Ok cut_tree)
    as Hbuild by reflexivity.
  assert (2 ≤ length (build_frequency_dict cut_data)) as Hlen by (simpl; lia).
  assert (int_2 (slice cut_stream 0 8) = Ok 6) as Hpad by reflexivity.
  split_and!; [done..|].
  exact (decode_data_drops_tail _ cut_tree cut_stream 6 Hbuild Hlen Hpad).
Defined.

(** C5 fails as stated: the stream of "BBCCCABCACCB" cut by its last byte
    has a payload that ends inside the tree (at the node above "A" and
    "B"), and [decode_data] returns the first six symbols instead of an
    error. *)
Lemma decode_data_reports_no_corruption :
  (∃ encoded_data,
     compress cut_data = Ok encoded_data ∧
     cut_stream = take (length encoded_data - 8) encoded_data) ∧
  build_huffman_tree (build_frequency_dict cut_data) = Ok cut_tree ∧
  (∃ node,
     decode_loop cut_tree (slice cut_stream 8 (- 6)) cut_tree [] =
       Ok (["B"; "B"; "C"; "C"; "C"; "A"]%char, node) ∧
     node ≠ cut_tree ∧ is_leaf node = false) ∧
  decode_data cut_stream cut_tree = Ok ["B"; "B"; "C"; "C"; "C"; "A"]%char.
Proof.
  split_and!; [eexists; split; reflexivity | reflexivity | | reflexivity].
  eexists. split_and!; [reflexivity | discriminate | reflexivity].
Qed.

Lemma decode_data_padding_0_witness :
  int_2 (slice zero_header_stream 0 8) = Ok 0 ∧
  decode_data zero_header_stream example_tree = Ok [].
Proof.
  assert (int_2 (slice zero_header_stream 0 8) = Ok 0) as Hpad by reflexivity.
  split; [done|]. exact (decode_data_padding_0 _ example_tree Hpad).
Defined.

Lemma encode_data_header_witness :
  join_codes example_data (build_codes example_tree) =
    Ok [false; false; false; false; false; true; true; true; true; true; true;
        true; false; true; false] ∧
  ∃ encoded_data,
    encode_data example_data (build_codes example_tree) = Ok encoded_data ∧
    encoded_data =
      format_08b 1
      ++ [false; false; false; false; false; true; true; true; true; true; true;
          true; false; true; false]
      ++ replicate 1 false ∧
    int_2 (slice encoded_data 0 8) = Ok 1 ∧
    1 ≤ 1 ≤ 8 ∧ (15 mod 8 = 0 → 1 = 8) ∧
    length encoded_data mod 8 = 0.
Proof.
  assert (join_codes example_data (build_codes example_tree) =
    Ok [false; false; false; false; false; true; true; true; true; true; true;
        true; false; true; false]) as Hjoin by reflexivity.
  split; [done|].
  exact (encode_data_header example_data (build_codes example_tree) _ Hjoin).
Defined.

(** C6 fails as stated: the eight code bits of "ABABABAB" are
    byte-aligned, (8 - 8 mod 8) mod 8 is 0, and the header holds 8. *)
Lemma encode_data_header_aligned :
  let codes := [("B"%char, [false]); ("A"%char, [true])] in
  let bits := [true; false; true; false; true; false; true; false] in
  let encoded_data :=
    [false; false; false; false; true; false; false; false] ++ bits
    ++ [false; false; false; false; false; false; false; false] in
  (∃ tree,
     build_huffman_tree (build_frequency_dict aligned_data) = Ok tree ∧
     build_codes tree = codes) ∧
  join_codes aligned_data codes = Ok bits ∧
  encode_data aligned_data codes = Ok encoded_data ∧
  int_2 (slice encoded_data 0 8) = Ok 8 ∧
  (8 - length bits mod 8) mod 8 = 0.
Proof. split_and!; [eexists; split; reflexivity | reflexivity..]. Qed.

(** C3 fails at the table of "AAA": the tree is a single leaf and the
    only code of the generated table is the empty string. *)
Lemma single_symbol_code_empty :
  build_frequency_dict single_data = [("A"%char, 3)] ∧
  build_huffman_tree (build_frequency_dict single_data) =
    Ok (mkHuffmanNode (Some "A"%char) 3 None None) ∧
  build_codes (mkHuffmanNode (Some "A"%char) 3 None None) = [("A"%char, [])].
Proof. split_and!; reflexivity. Qed.

(** C4 fails at "AAA": the code of "A" is empty, the stream carries no
    code bits, and decoding it returns the empty sequence. *)
Lemma single_symbol_round_trip_fails :
  compress single_data =
    Ok [false; false; false; false; true; false; false; false;
        false; false; false; false; false; false; false; false] ∧
  decompress (build_frequency_dict single_data)
    [false; false; false; false; true; false; false; false;
     false; false; false; false; false; false; false; false] = Ok [] ∧
  dict_lookup (build_codes (mkHuffmanNode (Some "A"%char) 3 None None))
    "A"%char = Some [].
Proof. split_and!; reflexivity. Qed.

(* ===================================================================== *)
(** * Greedy merging is optimal *)
(* ===================================================================== *)

Section Exchange.
Implicit Types (L R : list (nat * nat)) (ds ws : list nat).

Lemma kraft_sum_scale m M ds :
  Forall (λ d, d ≤ m) ds → m ≤ M →
  kraft_sum M ds = 2 ^ (M - m) * kraft_sum m ds.
Proof.
  intros Hall HM. unfold kraft_sum.
  induction Hall as [|d ds Hd _ IH]; simpl; [lia|].
  rewrite IH. replace (M - d) with ((M - m) + (m - d)) by lia.
  rewrite Nat.pow_add_r. lia.
Qed.

#[local] Instance kraft_Permutation : Proper ((≡ₚ) ==> iff) kraft.
Proof.
  intros ds1 ds2 Hperm. unfold kraft, kraft_sum.
  split; intros (M & HM & Hsum); exists M.
  - by rewrite <- Hperm.
  - by rewrite Hperm.
Qed.

(** Some deepest entry can be moved to the front. *)
Lemma deepest_first L :
  L ≠ [] → ∃ w d R, L ≡ₚ (w, d) :: R ∧ Forall (λ e, e ≤ d) R.*2.
Proof.
  induction L as [|[w d] L IH]; [done|]. intros _.
  destruct (decide (L = [])) as [->|Hne]; [by exists w, d, []|].
  destruct (IH Hne) as (w' & d' & R & Hperm & Hall).
  destruct (decide (d ≤ d')) as [Hle|Hgt].
  - exists w', d', ((w, d) :: R). split; [by rewrite Hperm, perm_swap|].
    by constructor.
  - exists w, d, ((w', d') :: R). split; [by rewrite Hperm|].
    constructor; [simpl; lia|]. eapply Forall_impl; [done|]. simpl. lia.
Qed.

(** When the deepest entry is alone at its depth, Kraft's inequality has
    room for lifting it to the depth of the next one. *)
Lemma lift_deepest d1 d2 ds :
  Forall (λ e, e ≤ d2) ds → d2 ≤ d1 → kraft (d1 :: d2 :: ds) →
  kraft_sum d2 (d2 :: d2 :: ds) ≤ 2 ^ d2.
Proof.
  intros Hall Hle (M & HM & Hsum).
  apply Forall_cons in HM as [HM1 _].
  unfold kraft_sum in *. simpl in *. fold (kraft_sum M ds) in Hsum.
  fold (kraft_sum d2 ds). rewrite (kraft_sum_scale d2 M ds) in Hsum by (done || lia).
  rewrite Nat.sub_diag. simpl.
  replace (2 ^ M) with (2 ^ (M - d2) * 2 ^ d2) in Hsum
    by (rewrite <- Nat.pow_add_r; f_equal; lia).
  assert (0 < 2 ^ (M - d1)) by (apply Nat.neq_0_lt_0, Nat.pow_nonzero; lia).
  assert (0 < 2 ^ (M - d2)) by (apply Nat.neq_0_lt_0, Nat.pow_nonzero; lia).
  nia.
Qed.

(** A smallest weight can take the place of the entry at the front when
    no entry is deeper than that one, without raising the cost. *)
Lemma smallest_to_front x d R a :
  Forall (λ e, e ≤ d) R.*2 →
  a ∈ x :: R.*1 → (∀ w, w ∈ x :: R.*1 → a ≤ w) →
  ∃ R', a :: R'.*1 ≡ₚ x :: R.*1 ∧ R'.*2 ≡ₚ R.*2 ∧
        pair_cost ((a, d) :: R') ≤ pair_cost ((x, d) :: R).
Proof.
  intros Hdeep Hin Hmin.
  destruct (decide (a = x)) as [->|Hne]; [by exists R|].
  apply elem_of_cons in Hin as [?|Hin]; [done|].
  apply list_elem_of_fmap in Hin as ([a' e] & -> & Hin).
  apply elem_of_Permutation in Hin as [R0 Hperm]. simpl in *.
  exists ((x, e) :: R0). split_and!.
  - rewrite Hperm. csimpl. apply perm_swap.
  - by rewrite Hperm.
  - assert (a' ≤ x) by (apply Hmin; by left).
    assert (e ≤ d).
    { rewrite Hperm in Hdeep. by apply Forall_cons in Hdeep as [? _]. }
    unfold pair_cost. rewrite Hperm. simpl. nia.
Qed.

(** The exchange step: the two smallest weights can be made siblings at
    the greatest depth and merged, which saves their sum. *)
Lemma exchange L a b ws :
  kraft L.*2 → L.*1 ≡ₚ a :: b :: ws →
  (∀ w, w ∈ L.*1 → a ≤ w) → (∀ w, w ∈ ws → b ≤ w) →
  ∃ L', kraft L'.*2 ∧ L'.*1 ≡ₚ (a + b) :: ws ∧
        pair_cost L' + a + b ≤ pair_cost L.
Proof.
  intros Hkraft Hws Ha Hb.
  (* the two deepest entries *)
  destruct (deepest_first L) as (x & d1 & L1 & HL & Hd1).
  { intros ->. by apply Permutation_nil_cons in Hws. }
  destruct (deepest_first L1) as (y & d2 & L2 & HL1 & Hd2).
  { intros ->. rewrite HL in Hws. apply Permutation_length in Hws. done. }
  assert (d2 ≤ d1) as Hd21.
  { rewrite HL1 in Hd1. by apply Forall_cons in Hd1 as [? _]. }
  assert (kraft_sum d2 (d2 :: d2 :: L2.*2) ≤ 2 ^ d2) as Hsum.
  { apply (lift_deepest d1); [done..|]. by rewrite HL, HL1 in Hkraft. }
  assert (1 ≤ d2) as Hpos.
  { destruct d2; [|lia]. unfold kraft_sum in Hsum. simpl in Hsum. lia. }
  (* lift the deepest entry, then bring [a] and [b] to the two deepest places *)
  assert (pair_cost ((x, d2) :: L1) ≤ pair_cost L) as Hcost1.
  { unfold pair_cost. rewrite HL. simpl. nia. }
  destruct (smallest_to_front x d2 L1 a) as (R1 & Hw1 & Hdep1 & Hcost2).
  { rewrite HL1. by constructor. }
  { rewrite HL in Hws. csimpl in Hws. rewrite Hws. by left. }
  { intros w Hw. apply Ha. by rewrite HL. }
  assert (R1.*1 ≡ₚ b :: ws) as HR1.
  { apply (Permutation_cons_inv (a := a)). rewrite Hw1.
    rewrite HL in Hws. by csimpl in Hws. }
  assert (d2 ∈ R1.*2) as Hin by (rewrite Hdep1, HL1; by left).
  apply list_elem_of_fmap in Hin as ([y' d2'] & Heq & Hin). simpl in Heq. subst d2'.
  apply elem_of_Permutation in Hin as [R2 HR2].
  assert (R2.*2 ≡ₚ L2.*2) as Hdep2.
  { apply (Permutation_cons_inv (a := d2)).
    rewrite HR2 in Hdep1. csimpl in Hdep1. by rewrite Hdep1, HL1. }
  destruct (smallest_to_front y' d2 R2 b) as (R3 & Hw3 & Hdep3 & Hcost3).
  { by rewrite Hdep2. }
  { rewrite HR2 in HR1. csimpl in HR1. rewrite HR1. by left. }
  { intros w Hw. rewrite HR2 in HR1. csimpl in HR1. rewrite HR1 in Hw.
    apply elem_of_cons in Hw as [->|Hw]; [done | by apply Hb]. }
  (* merge the two *)
  exists ((a + b, d2 - 1) :: R3). split_and!.
  - exists d2. csimpl. split.
    + constructor; [lia|]. by rewrite Hdep3, Hdep2.
    + unfold kraft_sum in *. simpl in *. rewrite Hdep3, Hdep2.
      replace (d2 - (d2 - 1)) with 1 by lia. rewrite Nat.sub_diag in Hsum.
      simpl in *. lia.
  - csimpl. f_equiv. apply (Permutation_cons_inv (a := b)).
    rewrite Hw3. rewrite HR2 in HR1. by csimpl in HR1.
  - assert (pair_cost ((a, d2) :: R1) =
            pair_cost ((a, d2) :: (y', d2) :: R2)) as Heq1.
    { unfold pair_cost. by rewrite HR2. }
    unfold pair_cost in *. simpl in *. nia.
Qed.

(** No list of (weight, depth) pairs obeying Kraft's inequality is cheaper
    than greedy merging of its weights. *)
Lemma greedy_lower_bound ws c :
  greedy ws c → ∀ L, kraft L.*2 → L.*1 ≡ₚ ws → c ≤ pair_cost L.
Proof.
  induction 1 as [w|ws a b ws' c Hws Ha Hb _ IH]; intros L Hkraft HL; [lia|].
  destruct (exchange L a b ws') as (L' & Hkraft' & HL' & Hcost).
  - done.
  - by rewrite HL.
  - intros w Hw. apply Ha. by rewrite <- HL.
  - done.
  - specialize (IH L' Hkraft' HL'). lia.
Qed.
End Exchange.

(* ===================================================================== *)
(** * The builder's tree is optimal *)
(* ===================================================================== *)

Section Optimality.
Context {Symbol : Type} `{EqDecision Symbol}.
Implicit Types (n t other : HuffmanNode Symbol) (frequency : dict Symbol nat).

(** The leaf depths of any tree obey Kraft's inequality. *)
Lemma kraft_leaves_at n :
  ∃ h, ∀ d M, d + h ≤ M →
    Forall (λ e, e ≤ M) (leaves_at d n).*2 ∧
    kraft_sum M (leaves_at d n).*2 ≤ 2 ^ (M - d).
Proof.
  induction n as [c f ol or IHl IHr] using HuffmanNode_children_ind.
  assert (∀ o : option (HuffmanNode Symbol),
    (∀ l, o = Some l → ∃ h, ∀ d M, d + h ≤ M →
       Forall (λ e, e ≤ M) (leaves_at d l).*2 ∧
       kraft_sum M (leaves_at d l).*2 ≤ 2 ^ (M - d)) →
    ∃ h, ∀ d M, S d + h ≤ M →
      let ls := match o with Some l => leaves_at (S d) l | None => [] end in
      Forall (λ e, e ≤ M) ls.*2 ∧ kraft_sum M ls.*2 ≤ 2 ^ (M - S d)) as Hchild.
  { intros [l|] IH.
    - destruct (IH l eq_refl) as [h Hh]. exists h. intros d M HM. by apply Hh.
    - exists 0. intros d M HM. split; [constructor|]. unfold kraft_sum. simpl. lia. }
  destruct (Hchild ol IHl) as [hl Hl]. destruct (Hchild or IHr) as [hr Hr].
  exists (S (hl `max` hr)). intros d M HM.
  destruct (Hl d M) as [Hl1 Hl2]; [lia|]. destruct (Hr d M) as [Hr1 Hr2]; [lia|].
  assert (2 ^ (M - d) = 2 * 2 ^ (M - S d)) as Hpow.
  { replace (M - d) with (S (M - S d)) by lia. apply Nat.pow_succ_r'. }
  assert (Forall (λ e, e ≤ M)
            (match ol with Some l => leaves_at (S d) l | None => [] end
             ++ match or with Some r => leaves_at (S d) r | None => [] end).*2 ∧
          kraft_sum M
            (match ol with Some l => leaves_at (S d) l | None => [] end
             ++ match or with Some r => leaves_at (S d) r | None => [] end).*2
          ≤ 2 ^ (M - d)) as Hboth.
  { rewrite fmap_app. split; [by apply Forall_app|].
    unfold kraft_sum in *. rewrite sum_list_with_app. lia. }
  destruct ol as [l|], or as [r|]; simpl; try done.
  split; [constructor; [lia|constructor]|]. unfold kraft_sum. simpl. lia.
Qed.

Lemma kraft_leaves n : kraft (leaves_at 0 n).*2.
Proof.
  destruct (kraft_leaves_at n) as [h Hh]. exists h.
  destruct (Hh 0 h) as [? Hsum]; [lia|]. by rewrite Nat.sub_0_r in Hsum.
Qed.

Lemma pair_cost_leaves (ls : list (option Symbol * nat * nat)) :
  pair_cost ((λ '(_, f, d), (f, d)) <$> ls) = cost ls.
Proof.
  unfold pair_cost, cost. induction ls as [|[[??]?] ls IH]; csimpl; [done|].
  by rewrite IH.
Qed.

(** No tree is cheaper than greedy merging of its leaf frequencies. *)
Lemma greedy_le_weighted_path_length other c :
  greedy (leaves other).*2 c → c ≤ weighted_path_length other.
Proof.
  intros Hgreedy.
  set (L := (λ '(_, f, d), (f, d)) <$> leaves_at 0 other).
  assert (L.*1 = (leaves other).*2) as HL1.
  { unfold L, leaves. rewrite <- !list_fmap_compose.
    apply list_fmap_ext. by intros _ [[??]?] _. }
  assert (L.*2 = (leaves_at 0 other).*2) as HL2.
  { unfold L. rewrite <- !list_fmap_compose.
    apply list_fmap_ext. by intros _ [[??]?] _. }
  assert (pair_cost L = weighted_path_length other) as <-
    by apply pair_cost_leaves.
  apply (greedy_lower_bound _ _ Hgreedy).
  - rewrite HL2. apply kraft_leaves.
  - by rewrite HL1.
Qed.

(** C2.  For a non-empty table the builder returns a tree that has
    exactly the table's entries as its leaves, and whose weighted path
    length is no larger than that of any tree, of any shape, with those
    leaves. *)
Theorem build_huffman_tree_optimal frequency :
  frequency ≠ [] →
  ∃ t,
    build_huffman_tree frequency = Ok t ∧
    leaves t ≡ₚ table_leaves frequency ∧
    ∀ other, leaves other ≡ₚ table_leaves frequency →
      weighted_path_length t ≤ weighted_path_length other.
Proof.
  intros Hne.
  destruct (build_huffman_tree_spec frequency Hne)
    as (t & c & Hbuild & _ & Hleaves & Hgreedy & Hwpl).
  exists t. split_and!; [done..|].
  intros other Hother. rewrite Hwpl.
  apply greedy_le_weighted_path_length.
  eapply greedy_perm; [|done]. rewrite Hother.
  unfold table_leaves, items. rewrite <- list_fmap_compose.
  erewrite list_fmap_ext; [done|]. by intros _ [??] _.
Qed.
End Optimality.

Lemma build_huffman_tree_optimal_witness :
  example_frequency ≠ [] ∧
  ∃ t,
    build_huffman_tree example_frequency = Ok t ∧
    leaves t ≡ₚ table_leaves example_frequency ∧
    ∀ other, leaves other ≡ₚ table_leaves example_frequency →
      weighted_path_length t ≤ weighted_path_length other.
Proof.
  assert (example_frequency ≠ []) as Hne by done.
  split; [done|]. exact (build_huffman_tree_optimal example_frequency Hne).
Defined.

(* ===================================================================== *)
(** * More on build_frequency_dict *)
(* ===================================================================== *)

Section FrequencyMore.
Context {Symbol : Type} `{EqDecision Symbol}.
Implicit Types (data : list Symbol) (frequency : dict Symbol nat) (c : Symbol).

Lemma keys_setitem frequency c (v : nat) :
  keys (dict_setitem frequency c v) =
  if decide (c ∈ keys frequency) then keys frequency else keys frequency ++ [c].
Proof.
  unfold keys. induction frequency as [|[k w] frequency IH]; csimpl.
  - done.
  - destruct (decide (c = k)) as [->|Hne]; csimpl.
    + rewrite decide_True; [done | by left].
    + rewrite IH. destruct (decide (c ∈ frequency.*1)) as [Hin|Hnin].
      * rewrite decide_True; [done | by right].
      * rewrite decide_False; [done|]. by intros [?|?]%elem_of_cons.
Qed.

(** The count loop, started from any table: counts grow by the number of
    occurrences. *)
Lemma count_loop_lookup data frequency c :
  let result :=
    foldl (λ frequency char,
             dict_setitem frequency char
               (default 0 (dict_lookup frequency char) + 1))
          frequency data in
  default 0 (dict_lookup result c) =
    default 0 (dict_lookup frequency c) + occurrences c data ∧
  (is_Some (dict_lookup result c) ↔
     is_Some (dict_lookup frequency c) ∨ c ∈ data).
Proof.
  revert frequency. induction data as [|char data IH]; intros frequency; simpl.
  - unfold occurrences. simpl. split; [lia|].
    rewrite elem_of_nil. naive_solver.
  - destruct (IH (dict_setitem frequency char
                    (default 0 (dict_lookup frequency char) + 1)))
      as (Hcount & Hsome).
    rewrite Hcount, Hsome. unfold occurrences.
    rewrite filter_cons. destruct (decide (char = c)) as [->|Hne].
    + rewrite dict_lookup_setitem_eq. simpl. split; [lia|].
      rewrite elem_of_cons. split; [auto|]. intros _. left. by eexists.
    + rewrite dict_lookup_setitem_ne by done. split; [done|].
      rewrite elem_of_cons. naive_solver.
Qed.

(** Keys are added at the end, in the order they first occur. *)
Lemma count_loop_keys data frequency :
  keys (foldl (λ frequency char,
                 dict_setitem frequency char
                   (default 0 (dict_lookup frequency char) + 1))
              frequency data) =
  foldl (λ seen c, if decide (c ∈ seen) then seen else seen ++ [c])
        (keys frequency) data.
Proof.
  revert frequency. induction data as [|char data IH]; intros frequency; simpl;
    [done|]. by rewrite IH, keys_setitem.
Qed.

Lemma build_frequency_dict_lookup data c :
  dict_lookup (build_frequency_dict data) c =
  if decide (c ∈ data) then Some (occurrences c data) else None.
Proof.
  destruct (count_loop_lookup data [] c) as (Hcount & Hsome).
  unfold build_frequency_dict. simpl in *.
  destruct (decide (c ∈ data)) as [Hin|Hnin].
  - destruct Hsome as [_ Hsome]. destruct Hsome as [v Hv]; [by right|].
    rewrite Hv in *. simpl in Hcount. by rewrite Hcount.
  - destruct (dict_lookup _ c) as [v|] eqn:Hv; [|done].
    destruct Hsome as [Hsome _]. destruct Hsome as [[? [=]]|?]; by eauto.
Qed.

(** X1.  The count stored for a symbol is the number of its occurrences in
    the input, and a symbol that does not occur has no entry. *)
Theorem build_frequency_dict_counts data c :
  dict_lookup (build_frequency_dict data) c =
  if decide (c ∈ data) then Some (occurrences c data) else None.
Proof. apply build_frequency_dict_lookup. Qed.

(** X2.  The entries of the table stand in the order in which their
    symbols first occur in the input. *)
Theorem build_frequency_dict_order data :
  keys (build_frequency_dict data) = distinct_in_order data.
Proof. apply (count_loop_keys data []). Qed.
End FrequencyMore.

(* ===================================================================== *)
(** * More on build_huffman_tree and build_codes *)
(* ===================================================================== *)

Section BuilderMore.
Context {Symbol : Type} `{EqDecision Symbol}.
Implicit Types (t l r : HuffmanNode Symbol) (frequency : dict Symbol nat).
Implicit Types (data : list Symbol) (s : Symbol).

Lemma strict_nodes_length t :
  strict t → length (nodes t) + 1 = 2 * length (leaves t).
Proof.
  induction 1 as [c f|l r _ IHl _ IHr]; [done|].
  rewrite leaves_internal. simpl. rewrite !length_app. lia.
Qed.

Lemma table_leaves_weights frequency :
  (table_leaves frequency).*2 = frequency.*2.
Proof.
  unfold table_leaves, items. rewrite <- list_fmap_compose.
  apply list_fmap_ext. by intros _ [??] _.
Qed.

Lemma table_leaves_symbols frequency :
  (table_leaves frequency).*1 = Some <$> keys frequency.
Proof.
  unfold table_leaves, items, keys. rewrite <- !list_fmap_compose.
  apply list_fmap_ext. by intros _ [??] _.
Qed.

Lemma build_huffman_tree_Ok_leaves frequency t :
  build_huffman_tree frequency = Ok t →
  strict t ∧ leaves t ≡ₚ table_leaves frequency.
Proof.
  intros Hbuild.
  destruct (build_huffman_tree_spec frequency)
    as (t' & c & Heq & Hstrict & Hleaves & _).
  { by eapply build_huffman_tree_Ok_nonempty. }
  rewrite Hbuild in Heq. by injection Heq as <-.
Qed.

Lemma build_huffman_tree_root_freq frequency t :
  build_huffman_tree frequency = Ok t → freq t = sum_list frequency.*2.
Proof.
  intros [Hstrict Hleaves]%build_huffman_tree_Ok_leaves.
  rewrite <- (weight_strict t Hstrict). unfold weight.
  by rewrite Hleaves, table_leaves_weights.
Qed.

(** X3.  The frequency stored in the root is the sum of the frequencies of
    the table, and the tree has one leaf for each entry of the table and
    one node less than twice as many nodes. *)
Theorem build_huffman_tree_totals frequency t :
  build_huffman_tree frequency = Ok t →
  freq t = sum_list frequency.*2 ∧
  length (leaves t) = length frequency ∧
  length (nodes t) = 2 * length frequency - 1.
Proof.
  intros Hbuild.
  destruct (build_huffman_tree_Ok_leaves _ _ Hbuild) as [Hstrict Hleaves].
  assert (length (leaves t) = length frequency) as Hlen.
  { rewrite Hleaves. unfold table_leaves, items. by rewrite length_fmap. }
  split_and!; [by apply build_huffman_tree_root_freq|done|].
  pose proof (strict_nodes_length t Hstrict). lia.
Qed.

(** X4.  In the tree built from the table of a text, the root's frequency
    is the length of the text. *)
Theorem build_huffman_tree_root_length data t :
  build_huffman_tree (build_frequency_dict data) = Ok t →
  freq t = length data.
Proof.
  intros Hbuild. rewrite (build_huffman_tree_root_freq _ _ Hbuild).
  destruct (count_loop_spec data []) as (Hsum & _). apply Hsum.
Qed.



End BuilderMore.

Lemma build_huffman_tree_totals_witness :
  build_huffman_tree example_frequency = Ok example_tree ∧
  freq example_tree = sum_list example_frequency.*2 ∧
  length (leaves example_tree) = length example_frequency ∧
  length (nodes example_tree) = 2 * length example_frequency - 1.
Proof.
  assert (build_huffman_tree example_frequency = Ok example_tree) as Hbuild
    by reflexivity.
  split; [done|]. exact (build_huffman_tree_totals _ _ Hbuild).
Defined.

Lemma build_huffman_tree_root_length_witness :
  build_huffman_tree (build_frequency_dict example_data) = Ok example_tree ∧
  freq example_tree = length example_data.
Proof.
  assert (build_huffman_tree (build_frequency_dict example_data) = Ok example_tree)
    as Hbuild by reflexivity.
  split; [done|]. exact (build_huffman_tree_root_length _ _ Hbuild).
Defined.


(* ===================================================================== *)
(** * More on encode_data and decode_data *)
(* ===================================================================== *)

Section CodecMore.
Context {Symbol : Type} `{EqDecision Symbol}.
Implicit Types (t l r root : HuffmanNode Symbol) (frequency : dict Symbol nat).
Implicit Types (data : list Symbol) (s : Symbol) (bits : bitstring).
Implicit Types (codes : dict Symbol bitstring).

(** The symbols of the table all have a code. *)
Lemma build_codes_covers frequency t s :
  build_huffman_tree frequency = Ok t → s ∈ keys frequency →
  is_Some (dict_lookup (build_codes t) s).
Proof.
  intros Hbuild Hs.
  destruct (build_huffman_tree_spec frequency)
    as (t' & c & Heq & Hstrict & Hleaves & _).
  { by eapply build_huffman_tree_Ok_nonempty. }
  rewrite Hbuild in Heq. injection Heq as <-.
  apply build_codes_is_Some.
  assert (Some s ∈ Some <$> (paths t).*1) as Hin.
  { rewrite strict_paths_leaves, Hleaves, table_leaves_symbols by done.
    by apply list_elem_of_fmap_2. }
  by apply list_elem_of_fmap in Hin as (s' & [= <-] & ?).
Qed.

Lemma encode_decode_framed frequency t data :
  build_huffman_tree frequency = Ok t → 2 ≤ length frequency →
  (∀ s, s ∈ data → s ∈ keys frequency) →
  ∃ bits,
    join_codes data (build_codes t) = Ok bits ∧
    decode_data (format_08b (8 - length bits mod 8) ++ bits
                 ++ replicate (8 - length bits mod 8) false) t = Ok data.
Proof.
  intros Hbuild Hlen Hcover.
  destruct (build_huffman_tree_internal frequency t Hbuild Hlen) as [Hstrict Hleaf].
  destruct (join_codes_Ok data (build_codes t)) as [bits Hjoin].
  { intros s Hs. by eapply build_codes_covers, Hcover. }
  exists bits. split; [done|].
  rewrite decode_data_framed
    by (pose proof (Nat.mod_upper_bound (length bits) 8); lia).
  rewrite <- (app_nil_r bits).
  rewrite (decode_loop_join t data (build_codes t) bits [] []); [done..| |done].
  apply build_codes_lookup.
Qed.


Lemma join_codes_cases data codes :
  (∃ bits, join_codes data codes = Ok bits ∧
           ∀ s, s ∈ data → is_Some (dict_lookup codes s)) ∨
  (join_codes data codes = Raise KeyError ∧
   ∃ s, s ∈ data ∧ dict_lookup codes s = None).
Proof.
  induction data as [|c data IH]; simpl.
  - left. eexists. split; [done|]. by intros s ?%elem_of_nil.
  - unfold dict_getitem. destruct (dict_lookup codes c) as [p|] eqn:Hp; simpl.
    + destruct IH as [(bits & -> & Hall)|(-> & s & Hs & Hnone)]; simpl.
      * left. eexists. split; [done|].
        intros s [->|?]%elem_of_cons; [by rewrite Hp | by apply Hall].
      * right. split; [done|]. exists s. split; [by right | done].
    + right. split; [done|]. exists c. split; [by left | done].
Qed.

(** X7.  [encode_data] raises [KeyError] exactly when some symbol of the
    text has no code, returns a stream exactly when all have one, and does
    nothing else. *)
Theorem encode_data_KeyError data codes :
  (encode_data data codes = Raise KeyError ↔
     ∃ s, s ∈ data ∧ dict_lookup codes s = None) ∧
  ((∃ encoded_data, encode_data data codes = Ok encoded_data) ↔
     ∀ s, s ∈ data → is_Some (dict_lookup codes s)) ∧
  ((∃ encoded_data, encode_data data codes = Ok encoded_data) ∨
   encode_data data codes = Raise KeyError).
Proof.
  unfold encode_data.
  destruct (join_codes_cases data codes)
    as [(bits & -> & Hall)|(-> & s & Hs & Hnone)]; simpl.
  - split_and!; [|split; eauto|eauto].
    split; [done|]. intros (s & Hs & Hnone).
    destruct (Hall s Hs) as [p Hp]. congruence.
  - split_and!; [split; eauto| |eauto].
    split; [by intros [? ?]|]. intros Hall.
    destruct (Hall s Hs) as [p Hp]. congruence.
Qed.

(** The walk itself can only fail by stepping onto a missing child. *)
Lemma decode_loop_results root bits t acc :
  (∃ result, decode_loop root bits t acc = Ok result) ∨
  decode_loop root bits t acc = Raise AttributeError.
Proof.
  revert t acc. induction bits as [|b bits IH]; intros t acc; simpl; [eauto|].
  destruct (if b then right t else left t) as [m|]; simpl; [|by right].
  destruct (char m); simpl; apply IH.
Qed.

Lemma decode_data_results (encoded_data : bitstring) root :
  (decode_data encoded_data root = Raise ValueError ↔ encoded_data = []) ∧
  ((∃ decoded, decode_data encoded_data root = Ok decoded) ∨
   decode_data encoded_data root = Raise ValueError ∨
   decode_data encoded_data root = Raise AttributeError).
Proof.
  unfold decode_data. destruct encoded_data as [|b rest].
  - split; [done | by right; left].
  - assert (∃ padding, int_2 (slice (b :: rest) 0 8) = Ok padding) as [padding ->].
    { unfold slice. rewrite !slice_index_nonneg by lia. simpl. eauto. }
    rewrite bind_Ok.
    destruct (decode_loop_results root (slice (b :: rest) 8 (- Z.of_nat padding))
                root []) as [[[decoded node] ->]| ->]; simpl.
    + split; [done | eauto].
    + split; [done | eauto].
Qed.

(** X8.  [decode_data] raises [ValueError] exactly on the empty stream;
    the only other exception it can raise is the [AttributeError] of a
    walk that steps onto a missing child. *)
Theorem decode_data_exceptions (encoded_data : bitstring) root :
  (decode_data encoded_data root = Raise ValueError ↔ encoded_data = []) ∧
  ((∃ decoded, decode_data encoded_data root = Ok decoded) ∨
   decode_data encoded_data root = Raise ValueError ∨
   decode_data encoded_data root = Raise AttributeError).
Proof.
  apply decode_data_results.
Qed.

(** X9.  Against the single leaf that the builder returns for a table of
    one entry, [decode_data] returns the empty text when the payload is
    empty and raises [AttributeError] on every other payload. *)
Theorem decode_data_single_leaf frequency root (encoded_data : bitstring) padding :
  build_huffman_tree frequency = Ok root → length frequency = 1 →
  int_2 (slice encoded_data 0 8) = Ok padding →
  decode_data encoded_data root =
  match slice encoded_data 8 (- Z.of_nat padding) with
  | [] => Ok []
  | _ :: _ => Raise AttributeError
  end.
Proof.
  intros Hbuild Hlen Hpad.
  destruct frequency as [|[c f] [|??]]; simplify_eq/=.
  assert (root = mkHuffmanNode (Some c) f None None) as ->.
  { assert (build_huffman_tree [(c, f)] = Ok (mkHuffmanNode (Some c) f None None))
      as Heq by reflexivity. congruence. }
  unfold decode_data. rewrite Hpad, bind_Ok.
  by destruct (slice encoded_data 8 (- Z.of_nat padding)) as [|[] ?].
Qed.
End CodecMore.


Lemma decode_data_single_leaf_witness :
  build_huffman_tree [("A"%char, 3)] = Ok (mkHuffmanNode (Some "A"%char) 3 None None) ∧
  length [("A"%char, 3)] = 1 ∧
  int_2 (slice cut_stream 0 8) = Ok 6 ∧
  decode_data cut_stream (mkHuffmanNode (Some "A"%char) 3 None None) =
    match slice cut_stream 8 (- Z.of_nat 6) with
    | [] => Ok []
    | _ :: _ => Raise AttributeError
    end.
Proof.
  assert (build_huffman_tree [("A"%char, 3)] =
          Ok (mkHuffmanNode (Some "A"%char) 3 None None)) as Hbuild by reflexivity.
  assert (length [("A"%char, 3)] = 1) as Hlen by reflexivity.
  assert (int_2 (slice cut_stream 0 8) = Ok 6) as Hpad by reflexivity.
  split_and!; [done..|].
  exact (decode_data_single_leaf _ _ cut_stream 6 Hbuild Hlen Hpad).
Defined.

(* ===================================================================== *)
(** * The size of the encoded stream *)
(* ===================================================================== *)

Section StreamSize.
Context {Symbol : Type} `{EqDecision Symbol}.
Implicit Types (t l r other : HuffmanNode Symbol) (frequency : dict Symbol nat).
Implicit Types (data : list Symbol) (s : Symbol) (bits : bitstring).
Implicit Types (codes : dict Symbol bitstring).

(** In a strict tree the length of a path is the depth of its leaf. *)
Lemma strict_paths_depths t d :
  strict t →
  (λ '(s, p), (Some s, d + length p)) <$> paths t =
  (λ '(c, _, k), (c, k)) <$> leaves_at d t.
Proof.
  intros Hstrict. revert d.
  induction Hstrict as [c f|l r _ IHl _ IHr]; intros d; simpl.
  - by rewrite Nat.add_0_r.
  - rewrite !fmap_app, <- (IHl (S d)), <- (IHr (S d)), <- !list_fmap_compose.
    f_equal; apply list_fmap_ext; intros _ [s p] _; simpl; do 2 f_equal; lia.
Qed.

(** The length of the joined codes is the sum of the code lengths. *)
Lemma join_codes_length data codes bits :
  join_codes data codes = Ok bits →
  length bits =
  sum_list_with (λ s, length (default [] (dict_lookup codes s))) data.
Proof.
  revert bits. induction data as [|c data IH]; intros bits; simpl.
  - by intros [= <-].
  - unfold dict_getitem. destruct (dict_lookup codes c) as [p|]; [|done]. simpl.
    destruct (join_codes data codes) as [bits'| |]; [|done..]. simpl.
    intros [= <-]. rewrite length_app, (IH bits') by done. done.
Qed.

(** A sum over the text is the sum over its table, weighted by the counts. *)
Lemma sum_by_counts (g : Symbol → nat) data :
  sum_list_with g data =
  sum_list_with (λ '(k, v), v * g k) (build_frequency_dict data).
Proof.
  unfold build_frequency_dict.
  assert (∀ frequency : dict Symbol nat,
    sum_list_with (λ '(k, v), v * g k)
      (foldl (λ frequency char,
                dict_setitem frequency char
                  (default 0 (dict_lookup frequency char) + 1))
             frequency data) =
    sum_list_with (λ '(k, v), v * g k) frequency + sum_list_with g data)
    as Hloop.
  { induction data as [|c data IH]; intros frequency; simpl; [lia|].
    rewrite IH. clear IH.
    assert (sum_list_with (λ '(k, v), v * g k)
              (dict_setitem frequency c
                 (default 0 (dict_lookup frequency c) + 1)) =
            sum_list_with (λ '(k, v), v * g k) frequency + g c) as ->; [|lia].
    induction frequency as [|[k v] frequency IH]; simpl; [lia|].
    destruct (decide (c = k)) as [->|Hne]; simpl; [lia|]. rewrite IH. lia. }
  by rewrite Hloop.
Qed.

Lemma weighted_path_length_by_codes frequency t :
  build_huffman_tree frequency = Ok t → NoDup (keys frequency) →
  weighted_path_length t =
  sum_list_with
    (λ '(k, v), v * length (default [] (dict_lookup (build_codes t) k)))
    frequency.
Proof.
  intros Hbuild Hnd.
  destruct (build_huffman_tree_spec frequency)
    as (t' & c & Heq & Hstrict & Hleaves & _).
  { by eapply build_huffman_tree_Ok_nonempty. }
  rewrite Hbuild in Heq. injection Heq as <-.
  set (g := λ s, length (default [] (dict_lookup (build_codes t) s))).
  set (h := λ '((c, f) : option Symbol * nat),
              f * from_option g 0 c).
  assert (NoDup (keys (build_codes t))) as Hcodes by apply build_codes_NoDup.
  assert (NoDup (paths t).*1) as Hpaths.
  { apply (NoDup_fmap Some).
    by rewrite strict_paths_leaves, Hleaves, table_leaves_symbols,
      (NoDup_fmap Some). }
  assert (∀ s p, (s, p) ∈ paths t → g s = length p) as Hg.
  { intros s p Hin. unfold g.
    destruct (build_codes_is_Some t s) as [q Hq].
    { apply list_elem_of_fmap. by exists (s, p). }
    rewrite Hq. simpl. apply build_codes_lookup in Hq.
    pose proof (dict_lookup_NoDup (paths t) s p Hpaths Hin) as Hp.
    pose proof (dict_lookup_NoDup (paths t) s q Hpaths Hq) as Hq'.
    congruence. }
  transitivity (sum_list_with h (leaves t)).
  - unfold weighted_path_length, cost, leaves.
    pose proof (strict_paths_depths t 0 Hstrict) as Hdepths.
    assert (Forall (λ '(c, f, d), d = from_option g 0 c) (leaves_at 0 t)) as Hall.
    { apply Forall_forall. intros [[c' f] d] Hin.
      assert ((c', d) ∈ (λ '(c, _, k), (c, k)) <$> leaves_at 0 t) as Hcd.
      { apply list_elem_of_fmap. by exists (c', f, d). }
      rewrite <- Hdepths in Hcd.
      apply list_elem_of_fmap in Hcd as ([s p] & [= -> ->] & Hsp).
      simpl. by rewrite (Hg s p). }
    clear Hdepths.
    induction Hall as [|[[c' f] d] ls Hd _ IH]; csimpl; [done|].
    rewrite IH, Hd. lia.
  - rewrite Hleaves. unfold table_leaves, items. clear.
    induction frequency as [|[k v] frequency IH]; csimpl; [done|].
    by rewrite IH.
Qed.

Lemma join_codes_weighted_path_length data t bits :
  build_huffman_tree (build_frequency_dict data) = Ok t →
  join_codes data (build_codes t) = Ok bits →
  length bits = weighted_path_length t.
Proof.
  intros Hbuild Hjoin.
  assert (NoDup (keys (build_frequency_dict data))) as Hnd.
  { destruct (count_loop_spec data []) as (_ & _ & Hnd). by apply Hnd, NoDup_nil. }
  rewrite (join_codes_length _ _ _ Hjoin), sum_by_counts.
  by rewrite (weighted_path_length_by_codes _ _ Hbuild Hnd).
Qed.

(** X10.  The number of code bits written for a text is the weighted path
    length of the tree built from the text's table, the stream takes that
    many bits rounded down to whole bytes plus two bytes, and no tree with
    the same leaves gives fewer code bits. *)
Theorem encoded_size data t bits encoded_data :
  build_huffman_tree (build_frequency_dict data) = Ok t →
  join_codes data (build_codes t) = Ok bits →
  encode_data data (build_codes t) = Ok encoded_data →
  length bits = weighted_path_length t ∧
  length encoded_data = 8 * (weighted_path_length t / 8 + 2) ∧
  ∀ other, leaves other ≡ₚ table_leaves (build_frequency_dict data) →
    length bits ≤ weighted_path_length other.
Proof.
  intros Hbuild Hjoin Hencode.
  assert (length bits = weighted_path_length t) as Hbits
    by by eapply join_codes_weighted_path_length.
  split_and!; [done| |].
  - rewrite (encode_data_Ok _ _ _ Hjoin) in Hencode. injection Hencode as <-.
    pose proof (Nat.mod_upper_bound (length bits) 8) as Hmod.
    rewrite !length_app, length_replicate, format_08b_length, <- Hbits by lia.
    pose proof (Nat.div_mod_eq (length bits) 8). lia.
  - intros other Hother. rewrite Hbits.
    destruct (build_huffman_tree_spec (build_frequency_dict data))
      as (t' & c & Heq & _ & _ & Hgreedy & Hwpl).
    { by eapply build_huffman_tree_Ok_nonempty. }
    rewrite Hbuild in Heq. injection Heq as <-. rewrite Hwpl.
    apply greedy_le_weighted_path_length.
    eapply greedy_perm; [|done]. by rewrite Hother, table_leaves_weights.
Qed.
End StreamSize.

Lemma encoded_size_witness :
  ∃ bits encoded_data,
    build_huffman_tree (build_frequency_dict example_data) = Ok example_tree ∧
    join_codes example_data (build_codes example_tree) = Ok bits ∧
    encode_data example_data (build_codes example_tree) = Ok encoded_data ∧
    length bits = weighted_path_length example_tree ∧
    length encoded_data = 8 * (weighted_path_length example_tree / 8 + 2) ∧
    ∀ other, leaves other ≡ₚ table_leaves (build_frequency_dict example_data) →
      length bits ≤ weighted_path_length other.
Proof.
  assert (build_huffman_tree (build_frequency_dict example_data) = Ok example_tree)
    as Hbuild by reflexivity.
  destruct (join_codes example_data (build_codes example_tree))
    as [bits| |] eqn:Hbits; [|discriminate Hbits..].
  destruct (encode_data example_data (build_codes example_tree))
    as [encoded_data| |] eqn:Henc; [|discriminate Henc..].
  exists bits, encoded_data. split_and!; [done..| | |];
    by destruct (encoded_size _ _ _ _ Hbuild Hbits Henc) as (? & ? & ?).
Defined.

(* ===================================================================== *)
(** * Bytes *)
(* ===================================================================== *)

Section ByteFacts.
Implicit Types (b f rest : bytes) (s c : bitstring).

Lemma Attempt_bind_Success {A B : Type} (a : A) (k : A → Attempt B) :
  mbind k (Success a) = k a.
Proof. reflexivity. Qed.

Lemma from_bytes_snoc b d : from_bytes (b ++ [d]) = 256 * from_bytes b + d.
Proof. unfold from_bytes. by rewrite foldl_app. Qed.

(** A number that fits is written in [length] bytes and read back. *)
Lemma to_bytes_Success x n :
  x < 256 ^ n →
  ∃ b, to_bytes x n = Success b ∧ length b = n ∧ from_bytes b = x.
Proof.
  revert x. induction n as [|n IH]; intros x Hx; simpl.
  - simpl in Hx. rewrite decide_True by lia. exists []. split_and!; [done..|].
    unfold from_bytes. simpl. lia.
  - rewrite Nat.pow_succ_r' in Hx.
    destruct (IH (x / 256)) as (b & -> & Hlen & Hval).
    { apply Nat.Div0.div_lt_upper_bound. lia. }
    rewrite Attempt_bind_Success. eexists. split_and!; [done| |].
    + rewrite length_app. simpl. lia.
    + rewrite from_bytes_snoc, Hval. pose proof (Nat.div_mod_eq x 256). lia.
Qed.

(** A number that does not fit raises [OverflowError]. *)
Lemma to_bytes_Failure x n :
  256 ^ n ≤ x → to_bytes x n = Failure OverflowError.
Proof.
  revert x. induction n as [|n IH]; intros x Hx; simpl.
  - simpl in Hx. rewrite decide_False by lia. done.
  - rewrite Nat.pow_succ_r' in Hx. rewrite IH; [done|].
    apply Nat.div_le_lower_bound; lia.
Qed.

Lemma to_bytes_length x n b : to_bytes x n = Success b → length b = n.
Proof.
  revert x b. induction n as [|n IH]; intros x b; simpl.
  - case_decide; [|done]. by intros [= <-].
  - destruct (to_bytes (x / 256) n) as [b'| |] eqn:Hb'; [|done..].
    intros [= <-]. rewrite length_app, (IH _ _ Hb'). simpl. lia.
Qed.

Lemma read_app b rest : read (b ++ rest) (length b) = (b, rest).
Proof. unfold read. by rewrite take_app_length, drop_app_length. Qed.

(** ** Bits to bytes and back *)

Lemma binary_value_bound s : binary_value s < 2 ^ length s.
Proof.
  induction s as [|bit s IH] using rev_ind; [unfold binary_value; simpl; lia|].
  rewrite binary_value_snoc, length_app, Nat.add_1_r, Nat.pow_succ_r'.
  destruct bit; lia.
Qed.

(** Eight binary digits are the byte [f"{...:08b}"] writes back. *)
Lemma format_08b_binary_value c :
  length c = 8 → format_08b (binary_value c) = c.
Proof.
  intros Hlen.
  do 8 (destruct c as [|[] c]; [done| |]); destruct c; try done.
Qed.

Lemma slice_chunk_0 c s : length c = 8 → slice (c ++ s) (Z.of_nat 0) (Z.of_nat (0 + 8)) = c.
Proof.
  intros Hlen. change (Z.of_nat 0) with 0%Z.
  replace (0 + 8) with (length c) by lia. apply slice_head.
Qed.

Lemma slice_chunk_shift c s i :
  length c = 8 →
  slice (c ++ s) (Z.of_nat (8 + i)) (Z.of_nat (8 + i + 8)) =
  slice s (Z.of_nat i) (Z.of_nat (i + 8)).
Proof.
  intros Hlen. unfold slice.
  rewrite !slice_index_nonneg, length_app by lia.
  rewrite !Nat2Z.id.
  destruct (decide (i ≤ length s)) as [Hi|Hi].
  - replace ((8 + i) `min` (length c + length s)) with (length c + i `min` length s) by lia.
    rewrite drop_app_add'; [|done].
    f_equal. lia.
  - replace ((8 + i) `min` (length c + length s)) with (length (c ++ s))
      by (rewrite length_app; lia).
    replace (i `min` length s) with (length s) by lia.
    by rewrite !drop_all, !take_nil.
Qed.
Lemma range_8_step n : range_8 (8 + n) = 0 :: ((λ i, 8 + i) <$> range_8 n).
Proof.
  unfold range_8. replace ((8 + n + 7) / 8) with (S ((n + 7) / 8)).
  - csimpl. f_equal. rewrite <- fmap_S_seq, <- !list_fmap_compose.
    apply list_fmap_ext. intros _ k _. simpl. lia.
  - replace (8 + n + 7) with (1 * 8 + (n + 7)) by lia.
    rewrite Nat.div_add_l by done. lia.
Qed.

Lemma bytearray_of_bits_shift c s indices :
  length c = 8 →
  bytearray_of_bits (c ++ s) ((λ i, 8 + i) <$> indices) =
  bytearray_of_bits s indices.
Proof.
  intros Hlen. induction indices as [|i indices IH]; [done|].
  rewrite fmap_cons. cbn [bytearray_of_bits].
  by rewrite slice_chunk_shift, IH.
Qed.

Lemma int_2_chunk c : length c = 8 → int_2 c = Ok (binary_value c).
Proof. by destruct c. Qed.

Lemma bits_of_bytes_cons v b :
  bits_of_bytes (v :: b) = format_08b v ++ bits_of_bytes b.
Proof.
  unfold bits_of_bytes. csimpl. do 2 f_equal.
Qed.

Lemma bytearray_of_bits_aligned n s :
  length s = 8 * n →
  ∃ b,
    bytearray_of_bits s (range_8 (length s)) = Ok b ∧
    length b = n ∧ Forall (λ v, v < 256) b ∧ bits_of_bytes b = s.
Proof.
  revert s. induction n as [|n IH]; intros s Hlen.
  - destruct s; [|simpl in Hlen; lia]. exists []. by split_and!.
  - rewrite <- (take_drop 8 s). set (c := take 8 s). set (s' := drop 8 s).
    assert (length c = 8) as Hc by (unfold c; rewrite length_take; lia).
    assert (length s' = 8 * n) as Hs' by (unfold s'; rewrite length_drop; lia).
    destruct (IH s' Hs') as (b & Hb & Hblen & Hbytes & Hbits).
    pose proof (binary_value_bound c) as Hbound. rewrite Hc in Hbound.
    exists (binary_value c :: b).
    rewrite length_app, Hc, range_8_step. cbn [bytearray_of_bits].
    rewrite slice_chunk_0, int_2_chunk, bind_Ok by done.
    rewrite decide_True by (simpl in Hbound; lia).
    rewrite bytearray_of_bits_shift, Hb, bind_Ok by done.
    split_and!; [done|simpl; lia| |].
    + constructor; [simpl in Hbound; lia|done].
    + by rewrite bits_of_bytes_cons, format_08b_binary_value, Hbits.
Qed.
End ByteFacts.

(* ===================================================================== *)
(** * The frequency table in the file *)
(* ===================================================================== *)

#[global] Arguments to_bytes : simpl never.
#[global] Arguments Nat.pow : simpl never.

Section TableFacts.
Implicit Types (frequency : dict nat nat) (f rest table b : bytes).
Implicit Types (d : dict (option nat) nat).

Lemma to_bytes_Success_inv x n b : to_bytes x n = Success b → x < 256 ^ n.
Proof.
  intros Hb. destruct (decide (x < 256 ^ n)) as [|Hge]; [done|].
  rewrite to_bytes_Failure in Hb by lia. done.
Qed.

Lemma to_bytes_results x n :
  (∃ b, to_bytes x n = Success b) ∨ to_bytes x n = Failure OverflowError.
Proof.
  destruct (decide (x < 256 ^ n)) as [Hlt|Hge].
  - destruct (to_bytes_Success x n Hlt) as (b & -> & _). eauto.
  - right. apply to_bytes_Failure. lia.
Qed.

Lemma encode_ascii char : char < 128 → encode char = Success [char].
Proof. intros. unfold encode. by rewrite decide_True. Qed.

Lemma encode_first_byte char :
  128 ≤ char →
  match encode char with
  | Success [] => False
  | Success (byte :: _) => 128 ≤ byte
  | _ => True
  end.
Proof.
  intros Hchar. unfold encode. rewrite decide_False by lia.
  destruct (decide (char < 2048)); [lia|].
  destruct (decide (char < 256 * 256)).
  - destruct (decide (216 * 256 ≤ char < 224 * 256)); [exact I|lia].
  - destruct (decide (char < 17 * (256 * 256))); [lia|exact I].
Qed.

Lemma encode_non_ascii char b :
  128 ≤ char → encode char = Success b →
  ∃ byte others, b = byte :: others ∧ 128 ≤ byte.
Proof.
  intros Hchar Hb. pose proof (encode_first_byte char Hchar) as Hfirst.
  rewrite Hb in Hfirst. destruct b as [|byte others]; [done|]. by eexists _, _.
Qed.

Lemma encode_results char :
  (∃ b, encode char = Success b) ∨ encode char = Failure UnicodeEncodeError.
Proof.
  unfold encode. destruct (decide (char < 128)); [by eauto|].
  destruct (decide (char < 2048)); [by eauto|].
  destruct (decide (char < 256 * 256)).
  - destruct (decide (216 * 256 ≤ char < 224 * 256)); by eauto.
  - destruct (decide (char < 17 * (256 * 256))); by eauto.
Qed.

(** What [write_table] needs, and what it writes for ASCII keys. *)
Lemma write_table_inv char freq frequency table :
  write_table ((char, freq) :: frequency) = Success table →
  ∃ b1 b2 rest,
    encode char = Success b1 ∧ to_bytes freq 4 = Success b2 ∧
    write_table frequency = Success rest ∧ table = b1 ++ b2 ++ rest.
Proof.
  simpl. destruct (encode char) as [b1| |]; [|done..].
  destruct (to_bytes freq 4) as [b2| |]; [|done..].
  destruct (write_table frequency) as [rest| |]; [|done..].
  intros [= <-]. by eexists _, _, _.
Qed.

Lemma write_table_Success frequency :
  Forall (λ kv, (∃ b, encode kv.1 = Success b) ∧ kv.2 < 256 ^ 4) frequency ↔
  ∃ table, write_table frequency = Success table.
Proof.
  induction frequency as [|[char freq] frequency IH]; split.
  - by eexists.
  - done.
  - intros [[[b1 Hb1] Hfreq] [rest Hrest]%IH]%Forall_cons.
    destruct (to_bytes_Success freq 4 Hfreq) as (b2 & Hb2 & _).
    simpl in Hb1. cbn [write_table]. rewrite Hb1, Hb2, Hrest. by eexists.
  - intros [table (b1 & b2 & rest & Hb1 & Hb2 & Hrest & _)%write_table_inv].
    constructor; [|apply IH; by eexists].
    split; [by eexists | by eapply to_bytes_Success_inv].
Qed.

Lemma write_table_results frequency :
  (∃ table, write_table frequency = Success table) ∨
  write_table frequency = Failure OverflowError ∨
  write_table frequency = Failure UnicodeEncodeError.
Proof.
  induction frequency as [|[char freq] frequency IH]; simpl; [eauto|].
  destruct (encode_results char) as [[b1 ->]| ->]; [|eauto].
  destruct (to_bytes_results freq 4) as [[b2 ->]| ->]; [|eauto].
  destruct IH as [[rest ->]|[->| ->]]; eauto.
Qed.

(** A table with ASCII keys takes five bytes for each entry, and
    [read_table] reads its entries back in their order. *)
Lemma read_table_write_table frequency table :
  Forall (λ kv, kv.1 < 128) frequency →
  write_table frequency = Success table →
  length table = 5 * length frequency ∧
  ∀ rest d,
    read_table (length frequency) (table ++ rest) d =
    Success (dict_update d (as_read frequency), rest).
Proof.
  revert table. induction frequency as [|[char freq] frequency IH];
    intros table Hascii Htable.
  - injection Htable as <-. done.
  - apply Forall_cons in Hascii as [Hchar Hascii].
    apply write_table_inv in Htable
      as (b1 & b2 & table' & Hb1 & Hb2 & Htable' & ->).
    rewrite encode_ascii in Hb1 by done. injection Hb1 as <-.
    pose proof (to_bytes_length _ _ _ Hb2) as Hlen2.
    pose proof (to_bytes_Success freq 4 (to_bytes_Success_inv _ _ _ Hb2))
      as (b2' & Hb2' & _ & Hval).
    rewrite Hb2 in Hb2'. injection Hb2' as <-.
    destruct (IH table' Hascii Htable') as [Hlen Hread].
    split; [rewrite !length_app, Hlen, Hlen2; simpl; lia|].
    intros rest d. cbn [length read_table]. simpl in Hchar.
    cbn [app read_char]. rewrite decide_True by done.
    rewrite Attempt_bind_Success. cbn beta iota.
    rewrite <- (assoc_L (++)), <- Hlen2, read_app, Hval. apply Hread.
Qed.

(** A key outside ASCII stops [read_table]: its first byte is no
    character. *)
Lemma read_table_non_ascii frequency table rest d count :
  write_table frequency = Success table →
  Exists (λ kv, 128 ≤ kv.1) frequency →
  length frequency ≤ count →
  read_table count (table ++ rest) d = Failure UnicodeDecodeError.
Proof.
  revert table d count. induction frequency as [|[char freq] frequency IH];
    intros table d count Htable Hex Hcount; [by apply Exists_nil in Hex|].
  apply write_table_inv in Htable
    as (b1 & b2 & table' & Hb1 & Hb2 & Htable' & ->).
  destruct count as [|count]; [simpl in Hcount; lia|].
  destruct (decide (char < 128)) as [Hchar|Hchar].
  - rewrite encode_ascii in Hb1 by done. injection Hb1 as <-.
    pose proof (to_bytes_length _ _ _ Hb2) as Hlen2.
    apply Exists_cons in Hex as [Hex|Hex]; [simpl in Hex; lia|].
    cbn [read_table app read_char]. rewrite decide_True by done.
    rewrite Attempt_bind_Success. cbn beta iota.
    rewrite <- (assoc_L (++)), <- Hlen2, read_app.
    apply IH; [done..|simpl in Hcount; lia].
  - destruct (encode_non_ascii char b1) as (byte & others & -> & Hbyte); [lia|done|].
    cbn [read_table app read_char]. by rewrite decide_False by lia.
Qed.

Lemma dict_setitem_nonempty d (k : option nat) (v : nat) : dict_setitem d k v ≠ [].
Proof. destruct d as [|[??]?]; simpl; [done|]. by case_decide. Qed.

(** [read_table] fails in one way only. *)
Lemma read_table_results count f d :
  (∃ d' f', read_table count f d = Success (d', f') ∧
            (d' = [] → d = [] ∧ count = 0)) ∨
  read_table count f d = Failure UnicodeDecodeError.
Proof.
  revert f d. induction count as [|count IH]; intros f d; simpl.
  - left. by eexists _, _.
  - destruct f as [|byte f]; simpl.
    + destruct (IH [] (dict_setitem d None (from_bytes [])))
        as [(d' & f' & -> & Hd')| ->]; [left|by right].
      eexists _, _. split; [done|]. intros [Hd _]%Hd'.
      by apply dict_setitem_nonempty in Hd.
    + case_decide; [|by right]. simpl.
      destruct (IH (drop 4 f) (dict_setitem d (Some byte) (from_bytes (take 4 f))))
        as [(d' & f' & -> & Hd')| ->]; [left|by right].
      eexists _, _. split; [done|]. intros [Hd _]%Hd'.
      by apply dict_setitem_nonempty in Hd.
Qed.


Lemma dict_update_fresh {K V : Type} `{EqDecision K} (d kvs : dict K V) :
  NoDup (keys d ++ kvs.*1) → dict_update d kvs = d ++ kvs.
Proof.
  revert d. induction kvs as [|[k v] kvs IH]; intros d Hnd; csimpl.
  - by rewrite app_nil_r.
  - assert (k ∉ keys d) as Hk.
    { apply NoDup_app in Hnd as (_ & Hdisj & _). intros Hin.
      apply (Hdisj k Hin). by left. }
    assert (dict_setitem d k v = d ++ [(k, v)]) as Hset.
    { unfold keys in Hk. clear -Hk. induction d as [|[k' v'] d IHd]; csimpl; [done|].
      apply not_elem_of_cons in Hk as [Hne Hk].
      rewrite decide_False by done. by rewrite IHd. }
    rewrite Hset, IH; [by rewrite <- (assoc_L (++))|].
    unfold keys in *. by rewrite fmap_app, <- (assoc_L (++)).
Qed.

Lemma dict_update_as_read frequency :
  NoDup (keys frequency) → dict_update [] (as_read frequency) = as_read frequency.
Proof.
  intros Hnd. apply (dict_update_fresh []). simpl.
  unfold as_read, keys in *. rewrite <- list_fmap_compose.
  rewrite (list_fmap_ext _ (Some ∘ fst) frequency) by (by intros _ [??] _).
  rewrite list_fmap_compose. apply NoDup_fmap_2; [|done]. by intros ?? [=].
Qed.
End TableFacts.

(* ===================================================================== *)
(** * huffman_compress and huffman_decompress *)
(* ===================================================================== *)

Section CompressedFile.
Implicit Types (data : list nat) (frequency : dict nat nat).
Implicit Types (f file count table payload : bytes) (bits : bitstring).
Implicit Types (d : dict (option nat) nat) (tree : HuffmanNode nat).

(** On a table read back whole, the builder of [huffman_decompress] is the
    builder of [huffman_compress]. *)
Lemma build_huffman_tree_read_as_read frequency :
  build_huffman_tree_read (as_read frequency) = build_huffman_tree frequency.
Proof.
  unfold build_huffman_tree_read, build_huffman_tree, items, as_read.
  rewrite <- list_fmap_compose.
  by rewrite (list_fmap_ext _ (λ '(char, freq), HuffmanNode_init (Some char) freq)
                frequency) by (by intros _ [??] _).
Qed.

(** The merge loop ends with one tree whatever its nodes carry. *)
Lemma merge_loop_total fuel (pq : list (HuffmanNode nat)) :
  pq ≠ [] → length pq ≤ S fuel → is_heap freq pq →
  ∃ t, merge_loop fuel pq = Ok [t].
Proof.
  revert pq. induction fuel as [|fuel IH]; intros pq Hne Hlen Hheap;
    simpl; destruct (decide (length pq > 1)) as [Hgt|Hngt]; try lia.
  1,3: destruct pq as [|t [|??]]; simpl in *; try done; try lia; by exists t.
  destruct (heapq_facts.heappop_spec HuffmanNode_lt freq HuffmanNode_lt_freq pq Hne)
    as (l & pq1 & -> & Hperm1 & Hpop1).
  destruct (Hpop1 Hheap) as [Hheap1 _]. rewrite bind_Ok. cbn beta iota.
  assert (pq1 ≠ []) as Hne1.
  { intros ->. apply Permutation_length in Hperm1. simpl in Hperm1. lia. }
  destruct (heapq_facts.heappop_spec HuffmanNode_lt freq HuffmanNode_lt_freq pq1 Hne1)
    as (r & pq2 & -> & Hperm2 & Hpop2).
  destruct (Hpop2 Hheap1) as [Hheap2 _]. rewrite bind_Ok. cbn beta iota zeta.
  set (merged := set_right _ _).
  destruct (heapq_facts.heappush_spec HuffmanNode_lt freq HuffmanNode_lt_freq pq2 merged)
    as (pq3 & -> & Hperm3 & Hpush).
  rewrite bind_Ok. apply IH.
  - intros ->. by apply Permutation_nil_l in Hperm3.
  - apply Permutation_length in Hperm1, Hperm2, Hperm3. simpl in *. lia.
  - by apply Hpush.
Qed.

Lemma build_huffman_tree_read_results d :
  (d = [] ∧ build_huffman_tree_read d = Raise IndexError) ∨
  (d ≠ [] ∧ ∃ tree, build_huffman_tree_read d = Ok tree).
Proof.
  destruct d as [|kv d]; [by left|right]. split; [done|].
  unfold build_huffman_tree_read, items.
  set (pq0 := (λ '(char, freq), HuffmanNode_init char freq) <$> kv :: d).
  destruct (heapq_facts.heapify_spec HuffmanNode_lt freq HuffmanNode_lt_freq pq0)
    as (pq & -> & Hperm & Hheap).
  rewrite bind_Ok.
  destruct (merge_loop_total (length pq) pq) as [t ->]; [|lia|done|by exists t].
  intros ->. by apply Permutation_nil_l in Hperm.
Qed.

(** The coding steps of [huffman_compress] succeed on every text that is
    not empty. *)
Lemma compress_steps data :
  data ≠ [] →
  ∃ tree bits,
    build_huffman_tree (build_frequency_dict data) = Ok tree ∧
    join_codes data (build_codes tree) = Ok bits ∧
    length bits = weighted_path_length tree.
Proof.
  intros Hne.
  destruct (build_huffman_tree_spec (build_frequency_dict data))
    as (tree & c & Hbuild & _).
  { destruct data as [|char data]; [done|].
    assert (char ∈ keys (build_frequency_dict (char :: data))) as Hin
      by (apply build_frequency_dict_keys; by left).
    intros Heq. rewrite Heq in Hin. by apply elem_of_nil in Hin. }
  destruct (join_codes_Ok data (build_codes tree)) as [bits Hjoin].
  { intros s Hs. eapply build_codes_covers; [done|].
    by apply build_frequency_dict_keys. }
  exists tree, bits. split_and!; [done..|].
  by eapply join_codes_weighted_path_length.
Qed.

(** The stream of [encode_data] packs into whole bytes. *)
Lemma encoded_bytes_spec bits :
  let padding := 8 - length bits mod 8 in
  let encoded_data := format_08b padding ++ bits ++ replicate padding false in
  ∃ payload,
    bytearray_of_bits encoded_data (range_8 (length encoded_data)) = Ok payload ∧
    length payload = length bits / 8 + 2 ∧
    bits_of_bytes payload = encoded_data.
Proof.
  intros padding encoded_data.
  pose proof (Nat.mod_upper_bound (length bits) 8) as Hmod.
  pose proof (Nat.div_mod_eq (length bits) 8) as Hdiv.
  destruct (bytearray_of_bits_aligned (length bits / 8 + 2) encoded_data)
    as (payload & Hpayload & Hlen & _ & Hbits).
  { unfold encoded_data, padding.
    rewrite !length_app, length_replicate, format_08b_length by lia. lia. }
  by exists payload.
Qed.

(** What [huffman_compress] does with a text that is not empty. *)
Lemma huffman_compress_nonempty data :
  data ≠ [] →
  ∃ tree bits payload,
    build_huffman_tree (build_frequency_dict data) = Ok tree ∧
    join_codes data (build_codes tree) = Ok bits ∧
    length bits = weighted_path_length tree ∧
    length payload = length bits / 8 + 2 ∧
    bits_of_bytes payload =
      format_08b (8 - length bits mod 8) ++ bits
      ++ replicate (8 - length bits mod 8) false ∧
    huffman_compress data =
      try_except writing
        (count ← to_bytes (length (build_frequency_dict data)) 2;
         table ← write_table (build_frequency_dict data);
         Success (count ++ table ++ payload))
        Returns.
Proof.
  intros Hne. destruct (compress_steps data Hne) as (tree & bits & Hbuild & Hjoin & Hlen).
  destruct (encoded_bytes_spec bits) as (payload & Hpayload & Hplen & Hbits).
  exists tree, bits, payload. split_and!; [done..|].
  unfold huffman_compress. rewrite Hbuild. cbn [uncaught].
  rewrite (encode_data_Ok _ _ _ Hjoin). cbn [uncaught].
  unfold write_compressed, items. rewrite Hpayload.
  destruct (to_bytes _ 2) as [count| |]; [|done..]. rewrite Attempt_bind_Success.
  by destruct (write_table _) as [table| |].
Qed.
Lemma read_prefix b rest n : length b = n → read (b ++ rest) n = (b, rest).
Proof. intros <-. apply read_app. Qed.

Lemma dict_lookup_elem_of frequency c n :
  dict_lookup frequency c = Some n → (c, n) ∈ frequency.
Proof.
  induction frequency as [|[k v] frequency IH]; simpl; [done|].
  case_decide; [intros [= ->]; subst; by left|]. intros ?%IH. by right.
Qed.

Lemma elem_of_le_sum_list (n : nat) (l : list nat) : n ∈ l → n ≤ sum_list l.
Proof.
  induction l as [|m l IH]; [by intros ?%elem_of_nil|].
  intros [->|?%IH]%elem_of_cons; simpl; lia.
Qed.

Lemma NoDup_bounded_length (l : list nat) (n : nat) :
  NoDup l → Forall (λ c, c < n) l → length l ≤ n.
Proof.
  intros Hnd Hall. trans (length (seq 0 n)); [|by rewrite length_seq].
  apply submseteq_length, NoDup_submseteq; [done|].
  intros c Hc. apply elem_of_seq.
  rewrite Forall_forall in Hall. specialize (Hall c Hc). lia.
Qed.

Lemma NoDup_keys_build_frequency_dict data : NoDup (keys (build_frequency_dict data)).
Proof.
  destruct (count_loop_spec data []) as (_ & _ & Hnd). by apply Hnd, NoDup_nil.
Qed.

(** The entries of the table of [data], read as a condition on [data]. *)
Lemma build_frequency_dict_Forall data (P : nat → nat → Prop) :
  Forall (λ kv, P kv.1 kv.2) (build_frequency_dict data) ↔
  ∀ c, c ∈ data → P c (occurrences c data).
Proof.
  rewrite Forall_forall. split.
  - intros Hall c Hc. apply (Hall (c, occurrences c data)).
    apply dict_lookup_elem_of. rewrite build_frequency_dict_lookup.
    by rewrite decide_True.
  - intros Hdata [c n] Hin.
    apply dict_lookup_NoDup in Hin; [|apply NoDup_keys_build_frequency_dict].
    rewrite build_frequency_dict_lookup in Hin.
    case_decide; [|done]. injection Hin as <-. by apply Hdata.
Qed.

(** What a file that [huffman_compress] has written consists of. *)
Lemma huffman_compress_Returns data file :
  huffman_compress data = Returns file →
  ∃ tree bits count table payload,
    build_huffman_tree (build_frequency_dict data) = Ok tree ∧
    join_codes data (build_codes tree) = Ok bits ∧
    length bits = weighted_path_length tree ∧
    length count = 2 ∧ from_bytes count = length (build_frequency_dict data) ∧
    write_table (build_frequency_dict data) = Success table ∧
    length payload = length bits / 8 + 2 ∧
    bits_of_bytes payload =
      format_08b (8 - length bits mod 8) ++ bits
      ++ replicate (8 - length bits mod 8) false ∧
    file = count ++ table ++ payload.
Proof.
  intros Hfile. destruct (decide (data = [])) as [->|Hne]; [done|].
  destruct (huffman_compress_nonempty data Hne)
    as (tree & bits & payload & Hbuild & Hjoin & Hlen & Hplen & Hbits & Heq).
  rewrite Heq in Hfile.
  destruct (to_bytes _ 2) as [count| |] eqn:Hcount; [|done..].
  rewrite Attempt_bind_Success in Hfile.
  destruct (write_table _) as [table| |] eqn:Htable; [|done..].
  injection Hfile as <-.
  destruct (to_bytes_Success _ 2 (to_bytes_Success_inv _ _ _ Hcount))
    as (count' & Hcount' & Hclen & Hcval).
  rewrite Hcount in Hcount'. injection Hcount' as <-.
  by exists tree, bits, count, table, payload.
Qed.

(** [huffman_decompress] on a file whose table has been read. *)
Lemma huffman_decompress_table count rest d payload :
  length count = 2 →
  read_table (from_bytes count) rest [] = Success (d, payload) →
  huffman_decompress (count ++ rest) =
  try_except reading
    (huffman_tree ← lift (build_huffman_tree_read d);
     Success (huffman_tree, bits_of_bytes payload))
    (λ '(huffman_tree, encoded_data),
       uncaught (decode_data encoded_data huffman_tree) Returns).
Proof.
  intros Hlen Hread. unfold huffman_decompress, read_compressed.
  rewrite (read_prefix count rest 2 Hlen). cbn beta iota zeta.
  by rewrite Hread.
Qed.

(** X11.  A bit string of whole bytes is packed into that many bytes, each
    below 256, and the bit string read back from those bytes is the one
    that was packed. *)
Theorem bytearray_of_bits_round_trip (s : bitstring) :
  length s mod 8 = 0 →
  ∃ payload,
    bytearray_of_bits s (range_8 (length s)) = Ok payload ∧
    length payload = length s / 8 ∧
    Forall (λ v, v < 256) payload ∧
    bits_of_bytes payload = s.
Proof.
  intros Hmod. apply bytearray_of_bits_aligned.
  pose proof (Nat.div_mod_eq (length s) 8). lia.
Qed.

Lemma read_table_round_trip_aux frequency :
  NoDup (keys frequency) →
  Forall (λ kv, kv.1 < 128 ∧ kv.2 < 256 ^ 4) frequency →
  ∃ table,
    write_table frequency = Success table ∧
    length table = 5 * length frequency ∧
    ∀ rest,
      read_table (length frequency) (table ++ rest) [] =
      Success (as_read frequency, rest).
Proof.
  intros Hnd Hall.
  destruct (proj1 (write_table_Success frequency)) as [table Htable].
  { eapply Forall_impl; [done|]. intros [c n] [Hc Hn].
    split; [|done]. eexists. by apply encode_ascii. }
  destruct (read_table_write_table frequency table) as [Hlen Hread]; [|done|].
  { eapply Forall_impl; [done|]. by intros [c n] [Hc _]. }
  exists table. split_and!; [done..|].
  intros rest. by rewrite Hread, dict_update_as_read.
Qed.

(** X12.  A table whose keys are distinct ASCII characters and whose counts
    are below 2^32 is written as five bytes for each entry, and reading
    that many records back gives the same table, in the same order, and
    leaves the rest of the file unread. *)
Theorem read_table_round_trip frequency :
  NoDup (keys frequency) →
  Forall (λ kv, kv.1 < 128 ∧ kv.2 < 256 ^ 4) frequency →
  ∃ table,
    write_table frequency = Success table ∧
    length table = 5 * length frequency ∧
    ∀ rest,
      read_table (length frequency) (table ++ rest) [] =
      Success (as_read frequency, rest).
Proof. apply read_table_round_trip_aux. Qed.

(** X13.  A text of ASCII characters, at least two of them different and
    fewer than 2^32 in all, is compressed to a file from which
    [huffman_decompress] writes the same text. *)
Theorem huffman_round_trip data :
  Forall (λ c, c < 128) data →
  (∃ a b, a ∈ data ∧ b ∈ data ∧ a ≠ b) →
  length data < 256 ^ 4 →
  ∃ file,
    huffman_compress data = Returns file ∧
    huffman_decompress file = Returns data.
Proof.
  intros Hascii (a & b & Ha & Hb & Hab) Hlen.
  assert (data ≠ []) as Hne by (intros ->; by apply elem_of_nil in Ha).
  destruct (huffman_compress_nonempty data Hne)
    as (tree & bits & payload & Hbuild & Hjoin & _ & _ & Hbits & Heq).
  pose proof (build_frequency_dict_keys data) as Hkeys.
  pose proof (NoDup_keys_build_frequency_dict data) as Hnd.
  destruct (count_loop_spec data []) as (Hsum & _).
  fold (build_frequency_dict data) in Hsum. simpl in Hsum.
  set (frequency := build_frequency_dict data) in *.
  assert (Forall (λ c, c < 128) (keys frequency)) as Hkascii.
  { apply Forall_forall. intros c Hc%Hkeys.
    rewrite Forall_forall in Hascii. by apply Hascii. }
  assert (length frequency < 256 ^ 2) as Hcount.
  { pose proof (NoDup_bounded_length _ _ Hnd Hkascii) as Hle.
    unfold keys in Hle. rewrite length_fmap in Hle.
    change (256 ^ 2) with (256 * (256 * 1)). lia. }
  assert (2 ≤ length frequency) as Htwo.
  { apply Hkeys in Ha, Hb. unfold keys in Ha, Hb.
    destruct frequency as [|[k1 v1] [|[k2 v2] ?]]; simpl; [|  |lia].
    - by apply elem_of_nil in Ha.
    - apply list_elem_of_singleton in Ha, Hb. simpl in *. congruence. }
  destruct (read_table_round_trip_aux frequency) as (table & Htable & _ & Hread);
    [done| |].
  { apply Forall_forall. intros [c n] Hin. simpl. split.
    - rewrite Forall_forall in Hkascii. apply Hkascii.
      unfold keys. apply list_elem_of_fmap. by exists (c, n).
    - assert (n ≤ sum_list frequency.*2); [|lia].
      apply elem_of_le_sum_list, list_elem_of_fmap. by exists (c, n). }
  destruct (to_bytes_Success (length frequency) 2 Hcount)
    as (count & Hcount' & Hclen & Hcval).
  rewrite Hcount', Attempt_bind_Success, Htable in Heq. cbn in Heq.
  exists (count ++ table ++ payload). split; [done|].
  rewrite (huffman_decompress_table count (table ++ payload)
             (as_read frequency) payload Hclen)
    by (rewrite Hcval; apply Hread).
  rewrite build_huffman_tree_read_as_read, Hbuild. cbn.
  destruct (encode_decode_framed frequency tree data Hbuild Htwo)
    as (bits' & Hjoin' & Hdecode).
  { intros s Hs. by apply Hkeys. }
  rewrite Hjoin in Hjoin'. injection Hjoin' as <-.
  by rewrite Hbits, Hdecode.
Qed.
(** X14.  [huffman_compress] lets an [IndexError] escape exactly on the
    empty text.  It writes a file exactly when the text is not empty, has
    fewer than 2^16 different characters, each of which can be encoded and
    occurs fewer than 2^32 times.  In every other case it reports a write
    error for an [OverflowError] or a [UnicodeEncodeError] and exits with
    status 1. *)
Theorem huffman_compress_outcome data :
  (huffman_compress data = Propagates IndexError ↔ data = []) ∧
  ((∃ file, huffman_compress data = Returns file) ↔
   data ≠ [] ∧ length (build_frequency_dict data) < 256 ^ 2 ∧
   ∀ c, c ∈ data →
     (∃ b, encode c = Success b) ∧ occurrences c data < 256 ^ 4) ∧
  ((∃ file, huffman_compress data = Returns file) ∨
   huffman_compress data = Propagates IndexError ∨
   huffman_compress data = Exits 1 writing OverflowError ∨
   huffman_compress data = Exits 1 writing UnicodeEncodeError).
Proof.
  destruct (decide (data = [])) as [->|Hne].
  { split_and!; [done| |by right; left].
    split; [by intros [file ?] | by intros [? _]]. }
  destruct (huffman_compress_nonempty data Hne)
    as (tree & bits & payload & _ & _ & _ & _ & _ & Heq).
  pose proof (build_frequency_dict_Forall data
    (λ c n, (∃ b, encode c = Success b) ∧ n < 256 ^ 4)) as Hentries.
  cbn beta in Hentries. rewrite <- Hentries, write_table_Success.
  rewrite Heq. clear Heq Hentries.
  destruct (to_bytes_results (length (build_frequency_dict data)) 2)
    as [[count Hcount]|Hcount]; rewrite Hcount.
  - apply to_bytes_Success_inv in Hcount. rewrite Attempt_bind_Success.
    destruct (write_table_results (build_frequency_dict data))
      as [[table ->]|[Htable|Htable]]; [|rewrite Htable..]; cbn.
    + split_and!; [done| |left; by eexists].
      split; [intros _; split_and!; [done..|by eexists] | intros _; by eexists].
    + split_and!; [done| |by right; right; left].
      split; [by intros [? ?] | by intros (_ & _ & [? ?])].
    + split_and!; [done| |by right; right; right].
      split; [by intros [? ?] | by intros (_ & _ & [? ?])].
  - cbn. split_and!; [done| |by right; right; left].
    split; [by intros [? ?]|]. intros (_ & Hlt & _).
    destruct (to_bytes_Success _ 2 Hlt) as (count & Hcount' & _). congruence.
Qed.

(** X15.  The file written for a text of ASCII characters has two bytes
    for the number of entries, five bytes for each entry of the table, and
    for the stream the code bits rounded down to whole bytes plus two
    bytes; the code bits number the weighted path length of the tree. *)
Theorem huffman_compress_size data tree file :
  Forall (λ c, c < 128) data →
  build_huffman_tree (build_frequency_dict data) = Ok tree →
  huffman_compress data = Returns file →
  length file =
    2 + 5 * length (build_frequency_dict data) + (weighted_path_length tree / 8 + 2).
Proof.
  intros Hascii Hbuild Hfile.
  destruct (huffman_compress_Returns data file Hfile)
    as (tree' & bits & count & table & payload & Hbuild' & _ & Hlen & Hclen & _
        & Htable & Hplen & _ & ->).
  rewrite Hbuild in Hbuild'. injection Hbuild' as <-.
  destruct (read_table_write_table (build_frequency_dict data) table)
    as [Htlen _]; [|done|].
  { apply Forall_forall. intros [c n] Hin.
    rewrite Forall_forall in Hascii. apply Hascii.
    apply build_frequency_dict_keys. unfold keys.
    apply list_elem_of_fmap. by exists (c, n). }
  rewrite !length_app, Hclen, Htlen, Hplen, Hlen. lia.
Qed.

(** X16.  When the text has a character outside ASCII, the file that
    [huffman_compress] writes for it is not read back: [huffman_decompress]
    reports a read error for a [UnicodeDecodeError] and exits with
    status 1. *)
Theorem huffman_decompress_non_ascii data file c :
  huffman_compress data = Returns file → c ∈ data → 128 ≤ c →
  huffman_decompress file = Exits 1 reading UnicodeDecodeError.
Proof.
  intros Hfile Hc Hlarge.
  destruct (huffman_compress_Returns data file Hfile)
    as (tree & bits & count & table & payload & _ & _ & _ & Hclen & Hcval
        & Htable & _ & _ & ->).
  unfold huffman_decompress, read_compressed.
  rewrite (read_prefix count (table ++ payload) 2 Hclen). cbn beta iota zeta.
  rewrite (read_table_non_ascii (build_frequency_dict data) table payload []
             (from_bytes count) Htable); [done| |lia].
  apply Exists_exists.
  apply build_frequency_dict_keys in Hc. unfold keys in Hc.
  apply list_elem_of_fmap in Hc as ([c' n] & -> & Hin). by exists (c', n).
Qed.

(** X17.  [huffman_decompress] ends in one of five ways: it writes a text;
    it reports a read error, for an [IndexError] or a [UnicodeDecodeError],
    and exits with status 1; or a [ValueError] or an [AttributeError]
    escapes from it.  The [IndexError] is that of a file whose first two
    bytes give the number 0, the empty file among them. *)
Theorem huffman_decompress_outcome f :
  (huffman_decompress f = Exits 1 reading (Builtin IndexError) ↔
   from_bytes (take 2 f) = 0) ∧
  ((∃ text, huffman_decompress f = Returns text) ∨
   huffman_decompress f = Exits 1 reading (Builtin IndexError) ∨
   huffman_decompress f = Exits 1 reading UnicodeDecodeError ∨
   huffman_decompress f = Propagates ValueError ∨
   huffman_decompress f = Propagates AttributeError).
Proof.
  unfold huffman_decompress, read_compressed, read. cbn beta iota zeta.
  destruct (from_bytes (take 2 f)) as [|count] eqn:Hcount.
  { cbn. split; [done | by right; left]. }
  destruct (read_table_results (S count) (drop 2 f) [])
    as [(d & f' & -> & Hd)| ->]; cbn.
  - destruct (build_huffman_tree_read_results d) as [[-> _]|[Hne [tree ->]]]; cbn.
    { by destruct Hd as [_ ?]. }
    destruct (decode_data_results (bits_of_bytes f') tree)
      as [_ [[text ->]|[->| ->]]]; cbn.
    + split; [by split|left; by eexists].
    + split; [by split|by do 3 right; left].
    + split; [by split|by do 4 right].
  - split; [by split|by right; right; left].
Qed.

(** X19.  For a text that repeats one ASCII character fewer than 2^32
    times, [huffman_compress] writes a file of nine bytes, and from that
    file [huffman_decompress] writes the empty text. *)
Theorem huffman_single_symbol_file c k :
  c < 128 → S k < 256 ^ 4 →
  ∃ b,
    to_bytes (S k) 4 = Success b ∧ length b = 4 ∧
    huffman_compress (replicate (S k) c) = Returns ([0; 1; c] ++ b ++ [8; 0]) ∧
    huffman_decompress ([0; 1; c] ++ b ++ [8; 0]) = Returns [].
Proof.
  intros Hc Hk.
  destruct (to_bytes_Success (S k) 4 Hk) as (b & Hb & Hblen & Hbval).
  exists b. split_and!; [done..| |].
  - destruct (single_symbol_lossy c k) as (Hbuild & Hcodes & Hcompress & _).
    cbn zeta in *. unfold compress in Hcompress. rewrite Hbuild in Hcompress.
    rewrite bind_Ok in Hcompress.
    unfold huffman_compress. rewrite Hbuild. cbn [uncaught].
    rewrite Hcompress. cbn [uncaught].
    rewrite build_frequency_dict_replicate.
    unfold write_compressed, items. cbn [length write_table].
    rewrite encode_ascii by done.
    assert (to_bytes 1 2 = Success [0; 1]) as -> by reflexivity.
    rewrite !Attempt_bind_Success, Hb, !Attempt_bind_Success.
    assert (bytearray_of_bits (format_08b 8 ++ replicate 8 false)
              (range_8 (length (format_08b 8 ++ replicate 8 false))) = Ok [8; 0])
      as -> by reflexivity.
    cbn. by rewrite app_nil_r.
  - change ([0; 1; c] ++ b ++ [8; 0]) with ([0; 1] ++ c :: b ++ [8; 0]).
    rewrite (huffman_decompress_table [0; 1] (c :: b ++ [8; 0])
               [(Some c, S k)] [8; 0]); [|done|].
    + assert (build_huffman_tree_read [(Some c, S k)] =
              Ok (mkHuffmanNode (Some c) (S k) None None)) as -> by reflexivity.
      reflexivity.
    + change (from_bytes [0; 1]) with 1. cbn [read_table read_char].
      rewrite decide_True by done. rewrite Attempt_bind_Success. cbn beta iota.
      by rewrite (read_prefix b [8; 0] 4 Hblen), Hbval.
Qed.
End CompressedFile.

Lemma bytearray_of_bits_round_trip_witness :
  length zero_header_stream mod 8 = 0 ∧
  ∃ payload,
    bytearray_of_bits zero_header_stream (range_8 (length zero_header_stream))
      = Ok payload ∧
    length payload = length zero_header_stream / 8 ∧
    Forall (λ v, v < 256) payload ∧
    bits_of_bytes payload = zero_header_stream.
Proof.
  assert (length zero_header_stream mod 8 = 0) as Hmod by reflexivity.
  split; [done|]. exact (bytearray_of_bits_round_trip zero_header_stream Hmod).
Defined.

Lemma read_table_round_trip_witness :
  NoDup (keys abracadabra_frequency) ∧
  Forall (λ kv, kv.1 < 128 ∧ kv.2 < 256 ^ 4) abracadabra_frequency ∧
  ∃ table,
    write_table abracadabra_frequency = Success table ∧
    length table = 5 * length abracadabra_frequency ∧
    ∀ rest,
      read_table (length abracadabra_frequency) (table ++ rest) [] =
      Success (as_read abracadabra_frequency, rest).
Proof.
  assert (NoDup (keys abracadabra_frequency)) as Hnd
    by (apply (bool_decide_unpack _); reflexivity).
  assert (Forall (λ kv, kv.1 < 128 ∧ kv.2 < 256 ^ 4) abracadabra_frequency) as Hall
    by (unfold abracadabra_frequency;
        repeat (apply Forall_cons_2; [cbn [fst snd]; lia|]); apply Forall_nil_2).
  split_and!; [done..|]. exact (read_table_round_trip abracadabra_frequency Hnd Hall).
Defined.

Lemma huffman_round_trip_witness :
  Forall (λ c, c < 128) abracadabra ∧
  (∃ a b, a ∈ abracadabra ∧ b ∈ abracadabra ∧ a ≠ b) ∧
  length abracadabra < 256 ^ 4 ∧
  ∃ file,
    huffman_compress abracadabra = Returns file ∧
    huffman_decompress file = Returns abracadabra.
Proof.
  assert (Forall (λ c, c < 128) abracadabra) as Hascii
    by (apply (bool_decide_unpack _); reflexivity).
  assert (∃ a b, a ∈ abracadabra ∧ b ∈ abracadabra ∧ a ≠ b) as Hdist.
  { exists 97, 98. split_and!; [| |lia]; apply list_elem_of_In; simpl; tauto. }
  assert (length abracadabra < 256 ^ 4) as Hlen by (cbn [length abracadabra]; lia).
  split_and!; [done..|]. exact (huffman_round_trip abracadabra Hascii Hdist Hlen).
Defined.

Lemma huffman_compress_size_witness :
  Forall (λ c, c < 128) abracadabra ∧
  build_huffman_tree (build_frequency_dict abracadabra) = Ok abracadabra_tree ∧
  huffman_compress abracadabra = Returns abracadabra_file ∧
  length abracadabra_file =
    2 + 5 * length (build_frequency_dict abracadabra)
    + (weighted_path_length abracadabra_tree / 8 + 2).
Proof.
  assert (Forall (λ c, c < 128) abracadabra) as Hascii
    by (apply (bool_decide_unpack _); reflexivity).
  assert (build_huffman_tree (build_frequency_dict abracadabra) = Ok abracadabra_tree)
    as Hbuild by reflexivity.
  assert (huffman_compress abracadabra = Returns abracadabra_file) as Hfile
    by reflexivity.
  split_and!; [done..|].
  exact (huffman_compress_size abracadabra abracadabra_tree abracadabra_file
           Hascii Hbuild Hfile).
Defined.

Lemma huffman_decompress_non_ascii_witness :
  huffman_compress zaba = Returns zaba_file ∧ 380 ∈ zaba ∧ 128 ≤ 380 ∧
  huffman_decompress zaba_file = Exits 1 reading UnicodeDecodeError.
Proof.
  assert (huffman_compress zaba = Returns zaba_file) as Hfile by reflexivity.
  assert (380 ∈ zaba) as Hin by (apply list_elem_of_In; simpl; tauto).
  assert (128 ≤ 380) as Hlarge by lia.
  split_and!; [done..|].
  exact (huffman_decompress_non_ascii zaba zaba_file 380 Hfile Hin Hlarge).
Defined.


Lemma huffman_single_symbol_file_witness :
  97 < 128 ∧ 4 < 256 ^ 4 ∧
  ∃ b,
    to_bytes 4 4 = Success b ∧ length b = 4 ∧
    huffman_compress (replicate 4 97) = Returns ([0; 1; 97] ++ b ++ [8; 0]) ∧
    huffman_decompress ([0; 1; 97] ++ b ++ [8; 0]) = Returns [].
Proof.
  assert (97 < 128) as Hc by lia.
  assert (4 < 256 ^ 4) as Hk by lia.
  split_and!; [done..|]. exact (huffman_single_symbol_file 97 3 Hc Hk).
Defined.

(* ===================================================================== *)
(** * The code table is a prefix code *)
(* ===================================================================== *)

Section PrefixCode.
Context {Symbol : Type} `{EqDecision Symbol}.
Implicit Types (t l r : HuffmanNode Symbol) (frequency : dict Symbol nat).
Implicit Types (s : Symbol) (p : bitstring).

Lemma strict_paths_length t s p :
  strict t → (s, p) ∈ paths t → length p < length (leaves t).
Proof.
  intros Hstrict. revert p.
  induction Hstrict as [c f|l r Hl IHl Hr IHr]; intros p.
  - simpl. intros [= -> ->]%list_elem_of_singleton. simpl. lia.
  - rewrite elem_of_paths_internal, leaves_internal, length_app.
    pose proof (strict_nodes_length l Hl). pose proof (strict_nodes_length r Hr).
    assert (0 < length (nodes l)) by (destruct l; simpl; lia).
    assert (0 < length (nodes r)) by (destruct r; simpl; lia).
    intros [(q & -> & Hq%IHl)|(q & -> & Hq%IHr)]; simpl; lia.
Qed.

(** X20.  With a table of at least two entries, the codes of the table
    built from its tree form a prefix code: every code has at least one
    bit and fewer bits than the table has entries, and a code that is a
    prefix of another code is the code of the same symbol. *)
Theorem build_codes_prefix_code frequency t s1 p1 s2 p2 :
  build_huffman_tree frequency = Ok t → 2 ≤ length frequency →
  (s1, p1) ∈ build_codes t → (s2, p2) ∈ build_codes t →
  0 < length p1 < length frequency ∧
  (p1 `prefix_of` p2 → s1 = s2 ∧ p1 = p2).
Proof.
  intros Hbuild Hlen H1%build_codes_entry H2%build_codes_entry.
  destruct (build_huffman_tree_internal frequency t Hbuild Hlen) as [Hstrict Hleaf].
  destruct (build_huffman_tree_Ok_leaves frequency t Hbuild) as [_ Hleaves].
  pose proof (strict_paths_length t s1 p1 Hstrict H1) as Hshort.
  rewrite Hleaves in Hshort. unfold table_leaves, items in Hshort.
  rewrite length_fmap in Hshort.
  pose proof (strict_paths_nonempty t s1 p1 Hstrict Hleaf H1) as Hne.
  split; [destruct p1; [done|simpl in *; lia]|].
  by apply (strict_paths_prefix t).
Qed.
End PrefixCode.

Lemma build_codes_prefix_code_witness :
  build_huffman_tree example_frequency = Ok example_tree ∧
  2 ≤ length example_frequency ∧
  ("A"%char, [false]) ∈ build_codes example_tree ∧
  ("C"%char, [true; false]) ∈ build_codes example_tree ∧
  0 < length [false] < length example_frequency ∧
  ([false] `prefix_of` [true; false] →
   "A"%char = "C"%char ∧ [false] = [true; false]).
Proof.
  assert (build_huffman_tree example_frequency = Ok example_tree) as Hbuild
    by reflexivity.
  assert (2 ≤ length example_frequency) as Hlen by (simpl; lia).
  assert (("A"%char, [false]) ∈ build_codes example_tree) as H1
    by (apply list_elem_of_In; vm_compute; tauto).
  assert (("C"%char, [true; false]) ∈ build_codes example_tree) as H2
    by (apply list_elem_of_In; vm_compute; tauto).
  refine (conj Hbuild (conj Hlen (conj H1 (conj H2 _)))).
  exact (build_codes_prefix_code _ _ _ _ _ _ Hbuild Hlen H1 H2).
Defined.
